(** * Bracket markup parser of the TTS pipeline

    A shallow embedding of [tts_lib/markup_parser.py] (class
    [BracketMarkupProcessor]) and of the [SpeechSegment] record of
    [tts_lib/data_structures.py], with the properties of its parser.

    Conventions of the embedding:
    - a Python [str] is a [string]; its characters are the code points
      U+0000 to U+00FF, so that [str.strip], [str.lower] and the regular
      expression class [\s] are the functions below on that range;
    - a Python [float] is a primitive binary64 [float];
    - an exception is a value of [exn] carried by [result];
    - the builtin [float()] is a parameter of the development
      ([py_float]), with [None] standing for [ValueError]. *)

From Stdlib Require Import Bool List Arith ZArith Lia Ascii String Floats Uint63.
From Stdlib Require Import DecimalString.
Import ListNotations.
Open Scope string_scope.
Open Scope list_scope.

(** ** Characters *)

Module Char.

Local Open Scope nat_scope.

Definition code (c : ascii) : nat := nat_of_ascii c.

(** [str.isspace] on one character: the ASCII white space of CPython
    (tab, LF, VT, FF, CR, FS, GS, RS, US, space) and, above it, NEL and
    the no-break space.  [str.strip] and the class [\s] both use it. *)
Definition is_space (c : ascii) : bool :=
  let n := code c in
  ((9 <=? n) && (n <=? 13)) || ((28 <=? n) && (n <=? 32))
  || (n =? 133) || (n =? 160).

(** [c in string.punctuation]. *)
Definition is_punct (c : ascii) : bool :=
  let n := code c in
  ((33 <=? n) && (n <=? 47)) || ((58 <=? n) && (n <=? 64))
  || ((91 <=? n) && (n <=? 96)) || ((123 <=? n) && (n <=? 126)).

(** [c.lower()]: the ASCII capitals and the Latin-1 capitals
    (U+00C0 to U+00DE but the multiplication sign). *)
Definition lower (c : ascii) : ascii :=
  let n := code c in
  if ((65 <=? n) && (n <=? 90))
     || ((192 <=? n) && (n <=? 222) && negb (n =? 215))
  then ascii_of_nat (n + 32) else c.

(** [c.upper()] as far as the phonetic table can see it: the table has
    ASCII keys only, and no character of the range other than an ASCII
    letter has an upper-case form among them. *)
Definition upper (c : ascii) : ascii :=
  let n := code c in
  if (97 <=? n) && (n <=? 122) then ascii_of_nat (n - 32) else c.

Definition is_bracket (c : ascii) : bool :=
  Ascii.eqb c "[" || Ascii.eqb c "]".

End Char.

(** ** The string methods the parser calls *)

Module Str.

Local Open Scope nat_scope.

Fixpoint forallb (p : ascii -> bool) (s : string) : bool :=
  match s with
  | EmptyString => true
  | String c s' => p c && forallb p s'
  end.

Fixpoint contains (c : ascii) (s : string) : bool :=
  match s with
  | EmptyString => false
  | String d s' => Ascii.eqb d c || contains c s'
  end.

Definition is_empty (s : string) : bool :=
  match s with EmptyString => true | _ => false end.

Fixpoint map (f : ascii -> ascii) (s : string) : string :=
  match s with
  | EmptyString => EmptyString
  | String c s' => String (f c) (map f s')
  end.

(** [s.lower()] *)
Definition lower (s : string) : string := map Char.lower s.

(** [s.lstrip()] *)
Fixpoint lstrip (s : string) : string :=
  match s with
  | EmptyString => EmptyString
  | String c s' => if Char.is_space c then lstrip s' else s
  end.

(** [s.rstrip()] *)
Fixpoint rstrip (s : string) : string :=
  match s with
  | EmptyString => EmptyString
  | String c s' =>
      let r := rstrip s' in
      if Char.is_space c && is_empty r then EmptyString else String c r
  end.

(** [s.strip()] *)
Definition strip (s : string) : string := rstrip (lstrip s).

(** [re.sub(r'\s+', ' ', s)]: every maximal run of white space becomes one
    space.  [in_run] tells that the previous character was white space. *)
Fixpoint collapse_from (in_run : bool) (s : string) : string :=
  match s with
  | EmptyString => EmptyString
  | String c s' =>
      if Char.is_space c
      then if in_run then collapse_from true s'
           else String " " (collapse_from true s')
      else String c (collapse_from false s')
  end.

Definition collapse (s : string) : string := collapse_from false s.

(** [s.startswith(p)] *)
Fixpoint startswith (p s : string) : bool :=
  match p, s with
  | EmptyString, _ => true
  | String a p', String b s' => Ascii.eqb a b && startswith p' s'
  | String _ _, EmptyString => false
  end.

(** [s.endswith(p)] *)
Definition endswith (p s : string) : bool :=
  (String.length p <=? String.length s)
  && String.eqb (substring (String.length s - String.length p)
                           (String.length p) s) p.

(** [s[a:-1]] *)
Definition slice_to_last (a : nat) (s : string) : string :=
  substring a (String.length s - 1 - a) s.

(** [sep.join(l)] *)
Definition join (sep : string) (l : list string) : string :=
  String.concat sep l.

(** [s.split(sep)] for a one-character separator: never an empty list. *)
Fixpoint split (sep : ascii) (s : string) : list string :=
  match s with
  | EmptyString => [EmptyString]
  | String c s' =>
      if Ascii.eqb c sep then EmptyString :: split sep s'
      else match split sep s' with
           | w :: ws => String c w :: ws
           | [] => [String c EmptyString]
           end
  end.

(** [s.split(sep, 1)] when [sep in s]: the text before the first [sep]
    and the text after it. *)
Fixpoint split_once (sep : ascii) (s : string) : string * string :=
  match s with
  | EmptyString => (EmptyString, EmptyString)
  | String c s' =>
      if Ascii.eqb c sep then (EmptyString, s')
      else let (k, v) := split_once sep s' in (String c k, v)
  end.

(** The characters of [s], for [for char in s]. *)
Definition chars (s : string) : list ascii := list_ascii_of_string s.

End Str.

(** ** The tokenizer: [token_pattern.findall]

    The pattern is
    [(\[pause:[0-9.]+\]|\[[^\]]+\]|\[/\]|[^[\]]+)].  At each position the
    alternatives are tried in their order and the first that matches gives
    the token; where none matches, the scan moves one character on.  A
    class repeated with [+] takes the longest run it can, and in the first
    two alternatives giving characters of the run back never helps, since
    none of them is the [']'] that must follow. *)

Module Tokenizer.

Local Open Scope nat_scope.

(** The longest prefix whose characters are in the class [p], and what
    follows it. *)
Fixpoint span (p : ascii -> bool) (s : string) : string * string :=
  match s with
  | EmptyString => (EmptyString, EmptyString)
  | String c s' =>
      if p c then let (t, r) := span p s' in (String c t, r)
      else (EmptyString, s)
  end.

(** What follows the literal [p] at the start of [s]. *)
Fixpoint after_prefix (p s : string) : option string :=
  match p, s with
  | EmptyString, _ => Some s
  | String a p', String b s' =>
      if Ascii.eqb a b then after_prefix p' s' else None
  | String _ _, EmptyString => None
  end.

(** [[0-9.]] *)
Definition digit_or_dot (c : ascii) : bool :=
  let n := nat_of_ascii c in
  ((48 <=? n) && (n <=? 57)) || Ascii.eqb c ".".

(** [[^\]]] *)
Definition not_close (c : ascii) : bool := negb (Ascii.eqb c "]").

(** [[^[\]]] *)
Definition not_bracket (c : ascii) : bool := negb (Char.is_bracket c).

(** [X+\]] for a class [X] that leaves [']'] out: the run and what follows
    the bracket. *)
Definition run_then_close (p : ascii -> bool) (s : string)
  : option (string * string) :=
  match span p s with
  | (String c t, String d rest) =>
      if Ascii.eqb d "]" then Some (String c t, rest) else None
  | _ => None
  end.

(** [\[pause:[0-9.]+\]]: the token and what follows it. *)
Definition match_pause (s : string) : option (string * string) :=
  match after_prefix "[pause:" s with
  | Some s' =>
      match run_then_close digit_or_dot s' with
      | Some (d, rest) => Some (("[pause:" ++ d ++ "]")%string, rest)
      | None => None
      end
  | None => None
  end.

(** [\[[^\]]+\]] *)
Definition match_tag (s : string) : option (string * string) :=
  match after_prefix "[" s with
  | Some s' =>
      match run_then_close not_close s' with
      | Some (inner, rest) => Some (("[" ++ inner ++ "]")%string, rest)
      | None => None
      end
  | None => None
  end.

(** [\[/\]] *)
Definition match_close (s : string) : option (string * string) :=
  match after_prefix "[/]" s with
  | Some rest => Some ("[/]", rest)
  | None => None
  end.

(** [[^[\]]+] *)
Definition match_text (s : string) : option (string * string) :=
  match span not_bracket s with
  | (String c t, rest) => Some (String c t, rest)
  | _ => None
  end.

Definition or_else {A : Type} (a b : option A) : option A :=
  match a with
  | Some _ => a
  | None => b
  end.

(** The four alternatives, in their order. *)
Definition match_token (s : string) : option (string * string) :=
  or_else (match_pause s)
    (or_else (match_tag s) (or_else (match_close s) (match_text s))).

(** The scan, one match attempt for each unit of [fuel]. *)
Fixpoint scan (fuel : nat) (s : string) : list string :=
  match fuel with
  | O => []
  | S fuel' =>
      match s with
      | EmptyString => []
      | String _ s' =>
          match match_token s with
          | Some (token, rest) => token :: scan fuel' rest
          | None => scan fuel' s'
          end
      end
  end.

(** Every attempt moves at least one character on, so the length of the
    text is fuel enough ([scan_fuel] below). *)
Definition findall (s : string) : list string := scan (String.length s) s.

End Tokenizer.

(** ** Exceptions *)

Inductive exn : Type :=
| KeyError (key : string)
| IndexError
| OverflowError
| TypeError.

Inductive result (A : Type) : Type :=
| Ok (a : A)
| Raise (e : exn).

Arguments Ok {A} a.
Arguments Raise {A} e.

Definition bind {A B : Type} (m : result A) (k : A -> result B) : result B :=
  match m with
  | Ok a => k a
  | Raise e => Raise e
  end.

Notation "x <- m ;; k" := (bind m (fun x => k))
  (at level 61, m at next level, right associativity).

(** A [for] loop whose body may raise. *)
Fixpoint for_each {A S : Type} (body : S -> A -> result S)
    (l : list A) (s : S) : result S :=
  match l with
  | [] => Ok s
  | x :: l' => s' <- body s x ;; for_each body l' s'
  end.

(** ** Values of the attribute dictionary *)

(** [float(n)] for an [int]: the nearest float, ties to even, and
    [OverflowError], here [None], when [n] is beyond the floats. *)
Definition float_of_int (n : Z) : option float :=
  match SpecFloat.binary_normalize FloatOps.prec FloatOps.emax n 0 false with
  | S754_infinity _ => None
  | sf => Some (SF2Prim sf)
  end.

(** The five numeric attributes always hold a [float]; ['spell'] holds a
    [bool], or, once a preset has multiplied it, a [float] or an [int]. *)
Inductive pyval : Type :=
| PyBool (b : bool)
| PyInt (n : Z)
| PyFloat (f : float).

(** The value as a float, where it has one. *)
Definition as_float (v : pyval) : float :=
  match v with
  | PyBool true => 1%float
  | PyBool false => 0%float
  | PyInt n => match float_of_int n with
               | Some f => f
               | None => infinity
               end
  | PyFloat f => f
  end.

(** [bool(v)] *)
Definition truthy (v : pyval) : bool :=
  match v with
  | PyBool b => b
  | PyInt n => negb (n =? 0)%Z
  | PyFloat f => negb (PrimFloat.eqb f 0)
  end.

(** [n == f] for an [int] and a [float]: the numbers are compared as they
    are, without rounding [n]. *)
Definition int_eq_float (n : Z) (f : float) : bool :=
  match Prim2SF f with
  | S754_zero _ => (n =? 0)%Z
  | S754_finite s m e =>
      let v := if s then Z.neg m else Z.pos m in
      if (0 <=? e)%Z then (n =? v * 2 ^ e)%Z
      else (n * 2 ^ (- e) =? v)%Z
  | _ => false
  end.

(** [v == w] *)
Definition py_eq (v w : pyval) : bool :=
  match v, w with
  | PyBool a, PyBool b => Bool.eqb a b
  | PyInt a, PyInt b => (a =? b)%Z
  | PyBool a, PyInt b | PyInt b, PyBool a => (Z.b2z a =? b)%Z
  | PyInt a, PyFloat f | PyFloat f, PyInt a => int_eq_float a f
  | _, _ => PrimFloat.eqb (as_float v) (as_float w)
  end.

(** The keys of the dictionary built by [_get_default_attrs]. *)
Inductive key : Type :=
| Rate | Pitch | Volume | PauseBefore | PauseAfter | Spell.

Definition all_keys : list key :=
  [Rate; Pitch; Volume; PauseBefore; PauseAfter; Spell].

Definition key_eqb (a b : key) : bool :=
  match a, b with
  | Rate, Rate | Pitch, Pitch | Volume, Volume
  | PauseBefore, PauseBefore | PauseAfter, PauseAfter | Spell, Spell => true
  | _, _ => false
  end.

(** [name in attrs], with the key found. *)
Definition key_of_string (name : string) : option key :=
  if name =? "rate" then Some Rate
  else if name =? "pitch" then Some Pitch
  else if name =? "volume" then Some Volume
  else if name =? "pause_before" then Some PauseBefore
  else if name =? "pause_after" then Some PauseAfter
  else if name =? "spell" then Some Spell
  else None.

Record Attrs : Type := mkAttrs {
  rate : float;
  pitch : float;
  volume : float;
  pause_before : float;
  pause_after : float;
  spell : pyval
}.

Definition _get_default_attrs : Attrs :=
  {| rate := 1; pitch := 1; volume := 1;
     pause_before := 0; pause_after := 0; spell := PyBool false |}.

(** [attrs[k]] *)
Definition get (a : Attrs) (k : key) : pyval :=
  match k with
  | Rate => PyFloat (rate a)
  | Pitch => PyFloat (pitch a)
  | Volume => PyFloat (volume a)
  | PauseBefore => PyFloat (pause_before a)
  | PauseAfter => PyFloat (pause_after a)
  | Spell => spell a
  end.

(** [attrs[k] = f] for a float [f] *)
Definition set_float (a : Attrs) (k : key) (f : float) : Attrs :=
  match k with
  | Rate => mkAttrs f (pitch a) (volume a) (pause_before a) (pause_after a) (spell a)
  | Pitch => mkAttrs (rate a) f (volume a) (pause_before a) (pause_after a) (spell a)
  | Volume => mkAttrs (rate a) (pitch a) f (pause_before a) (pause_after a) (spell a)
  | PauseBefore => mkAttrs (rate a) (pitch a) (volume a) f (pause_after a) (spell a)
  | PauseAfter => mkAttrs (rate a) (pitch a) (volume a) (pause_before a) f (spell a)
  | Spell => mkAttrs (rate a) (pitch a) (volume a) (pause_before a) (pause_after a) (PyFloat f)
  end.

(** [attrs['spell'] = b] for a bool [b] *)
Definition set_spell (a : Attrs) (b : bool) : Attrs :=
  mkAttrs (rate a) (pitch a) (volume a) (pause_before a) (pause_after a) (PyBool b).

(** [attrs[k] = v] *)
Definition set_value (a : Attrs) (k : key) (v : pyval) : Attrs :=
  match k with
  | Spell =>
      mkAttrs (rate a) (pitch a) (volume a) (pause_before a) (pause_after a) v
  | _ => set_float a k (as_float v)
  end.

(** ** Preset tables

    A table is the dictionary read from the configuration file: preset name
    to the items of its attribute dictionary, in their order.  A multiplier
    is the value as [json.load] gives it: a [float] for a number written
    with a fraction or an exponent and for [NaN] and [Infinity], an [int] of
    any size for an integer, [True] and [False], which multiply as the
    integers 1 and 0 do, and [None] or a [dict] for [null] or an object,
    which no attribute can be multiplied by.  A multiplier that is a string
    or an array is not represented: [bool * str] repeats the string, and
    what the interpreter can hold of such a value is no part of the
    program. *)

Inductive multiplier : Type :=
| MFloat (f : float)
| MInt (n : Z)
| MNone.

Definition Preset : Type := list (string * multiplier).
Definition PresetTable : Type := list (string * Preset).

(** [v * m]: a [float] times a number is a [float], and an [int] that it is
    multiplied by is first made a [float]; a [bool] counts as the [int] 1
    or 0. *)
Definition multiply (v : pyval) (m : multiplier) : result pyval :=
  match m with
  | MNone => Raise TypeError
  | MFloat b =>
      match v with
      | PyInt n =>
          match float_of_int n with
          | Some a => Ok (PyFloat (a * b))
          | None => Raise OverflowError
          end
      | _ => Ok (PyFloat (as_float v * b))
      end
  | MInt n =>
      match v with
      | PyFloat a =>
          match float_of_int n with
          | Some b => Ok (PyFloat (a * b))
          | None => Raise OverflowError
          end
      | PyBool c => Ok (PyInt (Z.b2z c * n))
      | PyInt z => Ok (PyInt (z * n))
      end
  end.

Fixpoint lookup (name : string) (t : PresetTable) : option Preset :=
  match t with
  | [] => None
  | (n, p) :: t' => if n =? name then Some p else lookup name t'
  end.

(** ** Speech segments *)

Record SpeechSegment : Type := mkSegment {
  text : string;
  seg_pause_before : float;
  seg_pause_after : float;
  seg_rate : float;
  seg_pitch : float;
  seg_volume : float;
  seg_spell : bool;
  voice : option string;
  start_time : float;
  end_time : float;
  duration : float
}.

(** [SpeechSegment(text=t, pause_before=pb, pause_after=pa, **attrs)] where
    [attrs] is a scope without its pause and spell entries. *)
Definition segment_of (t : string) (pb pa : float) (a : Attrs) : SpeechSegment :=
  mkSegment t pb pa (rate a) (pitch a) (volume a) false None 0 0 0.

(** [SpeechSegment(text=t, pause_before=pb)] *)
Definition segment_default (t : string) (pb : float) : SpeechSegment :=
  mkSegment t pb 0 1 1 1 false None 0 0 0.

(** ** The phonetic table *)

Definition _PHONETIC_SPELLING_MAP : list (ascii * string) :=
  [("A"%char, "AAY"); ("B"%char, "Bee"); ("C"%char, "See");
   ("D"%char, "Dee"); ("E"%char, "Eee"); ("F"%char, "Eff");
   ("G"%char, "Gee"); ("H"%char, "Aitch"); ("I"%char, "Eye");
   ("J"%char, "Jay"); ("K"%char, "Kay"); ("L"%char, "Ell");
   ("M"%char, "Em"); ("N"%char, "En"); ("O"%char, "Oh"); ("P"%char, "Pee");
   ("Q"%char, "Cue"); ("R"%char, "Ar"); ("S"%char, "Ess");
   ("T"%char, "Tee"); ("U"%char, "You"); ("V"%char, "Vee");
   ("W"%char, "Double-you"); ("X"%char, "Ex"); ("Y"%char, "Why");
   ("Z"%char, "Zee"); ("0"%char, "zero"); ("1"%char, "one");
   ("2"%char, "two"); ("3"%char, "three"); ("4"%char, "four");
   ("5"%char, "five"); ("6"%char, "six"); ("7"%char, "seven");
   ("8"%char, "eight"); ("9"%char, "nine")].

(** [_PHONETIC_SPELLING_MAP.get(c)] *)
Fixpoint table_get (c : ascii) (t : list (ascii * string)) : option string :=
  match t with
  | [] => None
  | (k, v) :: t' => if Ascii.eqb k c then Some v else table_get c t'
  end.

(** The body of the spelling loop: the table entry of the upper-cased
    character, or the character itself. *)
Definition spell_char (c : ascii) : string :=
  match table_get (Char.upper c) _PHONETIC_SPELLING_MAP with
  | Some p => p
  | None => String c EmptyString
  end.

(** [_spell_text]: the spelled characters joined by single spaces. *)
Definition _spell_text (text : string) : string :=
  Str.join " " (List.map spell_char (Str.chars text)).

(** ** Lists updated at their last element *)

(** [l[-1] = f(l[-1])]; nothing on the empty list, which the parser rules
    out before it reaches for [segments[-1]]. *)
Fixpoint update_last {A : Type} (f : A -> A) (l : list A) : list A :=
  match l with
  | [] => []
  | [x] => [f x]
  | x :: l' => x :: update_last f l'
  end.

(** [enumerate(tokens)] of the spelling loop: after every sound but the
    last one comes the segment [sep]. *)
Fixpoint interleave {A : Type} (sep : A) (l : list A) : list A :=
  match l with
  | [] => []
  | [x] => [x]
  | x :: l' => x :: sep :: interleave sep l'
  end.

(** ** The processor *)

Section Processor.

(** The builtin [float()]: [None] is [ValueError]. *)
Variable py_float : string -> option float.

(** The fields of [self]. *)
Variable emotion_presets : PresetTable.
Variable modifier_presets : PresetTable.
Variable spell_pause_duration : float.

(** *** [_apply_attributes] *)

(** The dictionary under construction with the keys assigned so far.
    [deepcopy] hands a float over as the same object, an assignment
    stores a new one, and the comparison of two dictionaries takes the
    same object for equal before it asks [==]: the assigned keys tell
    the two apart. *)
Definition Scratch : Type := (Attrs * list key)%type.

(** [for key, value in preset.items(): attrs[key] *= value] *)
Fixpoint apply_preset (p : Preset) (acc : Scratch) : result Scratch :=
  match p with
  | [] => Ok acc
  | (name, value) :: p' =>
      match key_of_string name with
      | Some k =>
          let a := fst acc in
          v <- multiply (get a k) value ;;
          apply_preset p' (set_value a k v, k :: snd acc)
      | None => Raise (KeyError name)
      end
  end.

(** The body of the loop over [new_attrs_str.split(',')]. *)
Definition apply_attribute (acc : Scratch) (raw : string) : result Scratch :=
  let attr := Str.lower (Str.strip raw) in
  if Str.contains ":" attr then
    let (k, value) := Str.split_once ":" attr in
    if Str.strip k =? "spell" then
      Ok (set_spell (fst acc)
            ((Str.lower (Str.strip value) =? "true")
             || (Str.strip value =? "1")),
          Spell :: snd acc)
    else
      match key_of_string (Str.strip k) with
      | Some k' =>
          match py_float (Str.strip value) with
          | Some f => Ok (set_float (fst acc) k' f, k' :: snd acc)
          | None => Ok acc
          end
      | None => Ok acc
      end
  else if attr =? "spell" then
    Ok (set_spell (fst acc) true, Spell :: snd acc)
  else
    match lookup attr emotion_presets with
    | Some p => apply_preset p acc
    | None =>
        match lookup attr modifier_presets with
        | Some p => apply_preset p acc
        | None => Ok acc
        end
    end.

Definition _apply_attributes (current_attrs : Attrs) (new_attrs_str : string)
  : result Scratch :=
  for_each apply_attribute (Str.split "," new_attrs_str) (current_attrs, []).

(** [temp_attrs != attribute_stack[-1]] for the [temp_attrs] that
    [_apply_attributes] made from a copy of the top scope. *)
Definition attrs_differ (top : Attrs) (temp : Scratch) : bool :=
  existsb
    (fun k => existsb (key_eqb k) (snd temp)
              && negb (py_eq (get (fst temp) k) (get top k)))
    all_keys.

(** *** The state of [parse_markup]

    [attribute_stack] is kept with its last element, the active scope,
    at the head. *)
Record State : Type := mkState {
  segments : list SpeechSegment;
  attribute_stack : list Attrs;
  current_text_buffer : list string;
  text_segment_created : bool
}.

Definition initial : State :=
  {| segments := []; attribute_stack := [_get_default_attrs];
     current_text_buffer := []; text_segment_created := false |}.

(** [segments[-1].text != ""], false when there is no segment. *)
Definition last_has_text (segs : list SpeechSegment) : bool :=
  match rev segs with
  | [] => false
  | s :: _ => negb (Str.is_empty (text s))
  end.

Definition add_text (t : string) (s : SpeechSegment) : SpeechSegment :=
  mkSegment (text s ++ t) (seg_pause_before s) (seg_pause_after s)
    (seg_rate s) (seg_pitch s) (seg_volume s) (seg_spell s) (voice s)
    (start_time s) (end_time s) (duration s).

Definition add_pause_after (d : float) (s : SpeechSegment) : SpeechSegment :=
  mkSegment (text s) (seg_pause_before s) (seg_pause_after s + d)%float
    (seg_rate s) (seg_pitch s) (seg_volume s) (seg_spell s) (voice s)
    (start_time s) (end_time s) (duration s).

(** The segments of a spelled flush. *)
Definition spelled_segments (text_content : string) (top : Attrs)
  : list SpeechSegment :=
  interleave (segment_of "" spell_pause_duration 0 top)
    (List.map (fun char_text => segment_of char_text 0 0 top)
              (List.map spell_char (Str.chars text_content))).

(** The test of the punctuation merge:
    [all(c in string.punctuation for c in text_content) and segments
     and segments[-1].text != ""]. *)
Definition merge_applies (text_content : string)
    (segs : list SpeechSegment) : bool :=
  Str.forallb Char.is_punct text_content
  && negb (match segs with [] => true | _ => false end)
  && last_has_text segs.

(** What the flush does to [segments] and [text_segment_created] for a
    buffer whose joined text is [text_content]. *)
Definition emit (text_content : string) (top : Attrs) (st : State)
  : list SpeechSegment * bool :=
  if Str.is_empty text_content then (segments st, text_segment_created st)
  else if merge_applies text_content (segments st)
  then (update_last (add_text text_content) (segments st),
        text_segment_created st)
  else if truthy (spell top)
  then (segments st ++ spelled_segments text_content top, true)
  else (segments st
          ++ [segment_of text_content (pause_before top) 0 top], true).

(** *** [_flush_text_buffer] *)
Definition _flush_text_buffer (st : State) : result State :=
  match current_text_buffer st with
  | [] => Ok st
  | _ :: _ =>
      match attribute_stack st with
      | [] => Raise IndexError
      | top :: below =>
          let text_content :=
            Str.strip (Str.join " " (current_text_buffer st)) in
          let (segs, created) := emit text_content top st in
          Ok {| segments := segs;
                attribute_stack := set_float top PauseBefore 0 :: below;
                current_text_buffer := [];
                text_segment_created := created |}
      end
  end.

(** *** The branches of the token loop *)

Definition close_tag (st : State) : result State :=
  st' <- _flush_text_buffer st ;;
  match attribute_stack st' with
  | _ :: (_ :: _) as below =>
      Ok (mkState (segments st') below (current_text_buffer st')
                  (text_segment_created st'))
  | _ => Ok st'
  end.

Definition pause_tag (token : string) (st : State) : result State :=
  st' <- _flush_text_buffer st ;;
  match py_float (Str.slice_to_last 7 token) with
  | Some d =>
      match segments st' with
      | _ :: _ =>
          Ok (mkState (update_last (add_pause_after d) (segments st'))
                      (attribute_stack st') (current_text_buffer st')
                      (text_segment_created st'))
      | [] =>
          match attribute_stack st' with
          | [] => Raise IndexError
          | top :: below =>
              Ok (mkState (segments st')
                    (set_float top PauseBefore (pause_before top + d)%float
                       :: below)
                    (current_text_buffer st') (text_segment_created st'))
          end
      end
  | None => Ok st'
  end.

Definition open_tag (token : string) (st : State) : result State :=
  let attrs_str := Str.slice_to_last 1 token in
  match attribute_stack st with
  | [] => Raise IndexError
  | top :: _ =>
      temp_attrs <- _apply_attributes top attrs_str ;;
      st' <- (if negb (match current_text_buffer st with
                       | [] => true | _ => false end)
                 && attrs_differ top temp_attrs
              then _flush_text_buffer st else Ok st) ;;
      Ok (mkState (segments st') (fst temp_attrs :: attribute_stack st')
                  (current_text_buffer st') (text_segment_created st'))
  end.

Definition plain_text (token : string) (st : State) : result State :=
  if Str.is_empty (Str.strip token) then Ok st
  else Ok (mkState (segments st) (attribute_stack st)
             (current_text_buffer st ++ [Str.strip (Str.collapse token)])
             (text_segment_created st)).

(** The body of [for token in tokens]. *)
Definition step (st : State) (token : string) : result State :=
  if Str.startswith "[" token && Str.endswith "]" token then
    if token =? "[/]" then close_tag st
    else if Str.startswith "[pause:" token then pause_tag token st
    else open_tag token st
  else plain_text token st.

(** What follows the last flush. *)
Definition finish (st : State) : result (list SpeechSegment) :=
  let fallback :=
    if match segments st with [] => true | _ => false end
       && negb (text_segment_created st)
    then Ok [segment_default "" 0]
    else Ok (segments st) in
  if negb (text_segment_created st) then
    match attribute_stack st with
    | [] => Raise IndexError
    | top :: _ =>
        if (0 <? pause_before top)%float
        then Ok (segments st ++ [segment_default "" (pause_before top)])
        else fallback
    end
  else fallback.

(** The token loop and the flush that follows it. *)
Definition run (tokens : list string) : result State :=
  st <- for_each step tokens initial ;;
  _flush_text_buffer st.

Definition parse_markup (markup_text : string) : result (list SpeechSegment) :=
  st <- run (Tokenizer.findall markup_text) ;;
  finish st.

End Processor.

(** ** The subtitle generator

    [SubtitleGenerator.generate_srt] of [tts_lib/subtitle_generator.py].
    What it writes to the file is kept as the list of the strings handed to
    [f.write], in their order.  [format_time] works on floats with
    [divmod] and is a parameter here. *)

Section SubtitleGenerator.

Variable format_time : float -> string.

(** The filter of the loop: [s.text.strip() and s.duration > 0]. *)
Definition has_subtitle (s : SpeechSegment) : bool :=
  negb (Str.is_empty (Str.strip (text s))) && (0 <? duration s)%float.

Definition newline : string := String "010" EmptyString.

(** [f"{i}"] for an index [i]. *)
Definition decimal (i : nat) : string :=
  NilEmpty.string_of_uint (Nat.to_uint i).

(** The three writes of one turn of the loop. *)
Definition srt_entry (i : nat) (s : SpeechSegment) : list string :=
  [decimal i ++ newline;
   format_time (start_time s) ++ " --> " ++ format_time (end_time s)
     ++ newline;
   Str.strip (text s) ++ newline ++ newline]%string.

(** [for i, segment in enumerate(kept, i): ...] *)
Fixpoint srt_entries (i : nat) (kept : list SpeechSegment) : list string :=
  match kept with
  | [] => []
  | s :: kept' => srt_entry i s ++ srt_entries (S i) kept'
  end.

Definition generate_srt (segments : list SpeechSegment) : list string :=
  srt_entries 1 (List.filter has_subtitle segments).

End SubtitleGenerator.

(** ** A reader of decimal numerals

    [float()] on the numerals [[+-]digits], [[+-]digits.digits],
    [[+-]digits.] and [[+-].digits] of at most fifteen digits: the quotient
    of two integers that binary64 holds exactly is the correctly rounded
    value.  It is the instance of [py_float] at which the examples below
    are run; they give it numerals of that shape, or text that is no
    numeral at all. *)

Module Decimal.

Definition digit (c : ascii) : option nat :=
  let n := nat_of_ascii c in
  if ((48 <=? n) && (n <=? 57))%nat then Some (n - 48) else None.

(** The digits of [s] read onto [acc], with their number. *)
Fixpoint digits (s : string) (acc : nat) (count : nat) : option (nat * nat) :=
  match s with
  | EmptyString => Some (acc, count)
  | String c s' =>
      match digit c with
      | Some d => digits s' (10 * acc + d) (S count)
      | None => None
      end
  end.

Definition of_nat (n : nat) : float :=
  PrimFloat.of_uint63 (Uint63.of_Z (Z.of_nat n)).

Definition unsigned (s : string) : option float :=
  if Str.contains "." s then
    let (ip, fp) := Str.split_once "." s in
    match digits ip 0 0 with
    | Some (i, ni) =>
        match digits fp i ni with
        | Some (m, n) =>
            if ((n =? 0) || (15 <? n))%nat then None
            else Some (of_nat m / of_nat (10 ^ (n - ni)))%float
        | None => None
        end
    | None => None
    end
  else
    match digits s 0 0 with
    | Some (m, n) =>
        if ((n =? 0) || (15 <? n))%nat then None else Some (of_nat m)
    | None => None
    end.

Definition read (s : string) : option float :=
  match s with
  | String "-" s' => option_map PrimFloat.opp (unsigned s')
  | String "+" s' => unsigned s'
  | _ => unsigned s
  end.

End Decimal.

(** ** Notions used by the statements

    What follows is not code of the parser: the predicates, the texts and
    the sample data in whose terms its properties are stated. *)

(** A text that [strip] leaves alone: not empty, no white space at
    either end. *)
Definition trimmed (s : string) : Prop :=
  s <> EmptyString /\ Str.lstrip s = s /\ Str.rstrip s = s.

(** The text holds neither ['['] nor [']']. *)
Definition no_bracket (s : string) : bool :=
  Str.forallb (fun c => negb (Char.is_bracket c)) s.

(** [c.upper() in _PHONETIC_SPELLING_MAP] *)
Definition in_table (c : ascii) : bool :=
  match table_get (Char.upper c) _PHONETIC_SPELLING_MAP with
  | Some _ => true
  | None => false
  end.

(** An ASCII letter or digit. *)
Definition is_alnum (c : ascii) : bool :=
  let n := nat_of_ascii c in
  (((48 <=? n) && (n <=? 57)) || ((65 <=? n) && (n <=? 90))
   || ((97 <=? n) && (n <=? 122)))%nat.

(** The pause tag whose duration text is [d]. *)
Definition pause_token (d : string) : string := "[pause:" ++ d ++ "]".

(** The value is no [int]. *)
Definition not_int (v : pyval) : bool :=
  match v with
  | PyInt _ => false
  | _ => true
  end.

(** The multiplier is a number that the attribute [k] can be multiplied
    by: a float, or, for an attribute that holds a float, an integer that
    has a float. *)
Definition multiplier_fits (k : key) (m : multiplier) : bool :=
  match m with
  | MFloat _ => true
  | MInt n =>
      negb (key_eqb k Spell)
      && match float_of_int n with Some _ => true | None => false end
  | MNone => false
  end.

(** Every key of the preset is one of [allowed], and its multiplier fits
    it. *)
Definition preset_keys_in (allowed : list key) (p : Preset) : bool :=
  List.forallb
    (fun item => match key_of_string (fst item) with
                 | Some k => List.existsb (key_eqb k) allowed
                             && multiplier_fits k (snd item)
                 | None => false
                 end) p.

(** The presets of the table name attributes only, with multipliers that
    fit them. *)
Definition presets_ok (t : PresetTable) : bool :=
  List.forallb (fun entry => preset_keys_in all_keys (snd entry)) t.

(** The presets of the table name numeric attributes only, with
    multipliers that fit them. *)
Definition presets_numeric (t : PresetTable) : bool :=
  List.forallb
    (fun entry =>
       preset_keys_in [Rate; Pitch; Volume; PauseBefore; PauseAfter]
                      (snd entry)) t.

(** The stack holds a scope, there are segments exactly when
    [text_segment_created] is set, and no scope has an [int] for
    [spell]. *)
Definition sound (st : State) : Prop :=
  attribute_stack st <> []
  /\ (text_segment_created st = false -> segments st = [])
  /\ (text_segment_created st = true -> segments st <> [])
  /\ Forall (fun a => not_int (spell a) = true) (attribute_stack st).

(** The maximal runs of characters that are not white space. *)
Fixpoint words (s : string) : list string :=
  match s with
  | EmptyString => []
  | String c s' =>
      if Char.is_space c then words s'
      else match s' with
           | EmptyString => [String c EmptyString]
           | String d _ =>
               if Char.is_space d then String c EmptyString :: words s'
               else match words s' with
                    | w :: ws => String c w :: ws
                    | [] => [String c EmptyString]
                    end
           end
  end.

(** The text with its runs of white space collapsed to one space and its
    ends trimmed, as the specification words it: the words of the text
    separated by single spaces. *)
Definition whitespace_normalized (s : string) : string :=
  Str.join " " (words s).

(** [" " + " ".join(ws)], or nothing when there is no word. *)
Definition spaced (ws : list string) : string :=
  match ws with
  | [] => EmptyString
  | _ => String " " (Str.join " " ws)
  end.

(** [token.startswith('[') and token.endswith(']')] *)
Definition is_tag (token : string) : bool :=
  Str.startswith "[" token && Str.endswith "]" token.





(** The non-empty texts of the segments, separated by single spaces. *)
Definition spoken_text (segs : list SpeechSegment) : string :=
  Str.join " "
    (List.filter (fun t => negb (Str.is_empty t)) (List.map text segs)).






(** The scope at the bottom of the stack. *)
Definition root_scope (st : State) : Attrs :=
  List.last (attribute_stack st) _get_default_attrs.

(** Two preset tables that share the name [happy]. *)
Definition lively : PresetTable :=
  [("happy", [("rate", MFloat 1.25); ("pitch", MFloat 1.5)])].

Definition calm : PresetTable :=
  [("happy", [("volume", MFloat 0.5)]); ("soft", [("volume", MFloat 0.25)])].

(** The state after the text ["a"] has been flushed from the root scope. *)
Definition spoken_a : State :=
  mkState [segment_default "a" 0] [_get_default_attrs] [] true.

(** The scope that [[spell]] opens at root. *)
Definition spelling : Attrs := set_spell _get_default_attrs true.

(** ** Facts about the string methods *)

Module StrFacts.

Import Str.

Lemma is_empty_true s : is_empty s = true <-> s = EmptyString.
Proof. destruct s; simpl; split; congruence. Qed.

Lemma is_empty_false s : is_empty s = false <-> s <> EmptyString.
Proof. destruct s; simpl; split; congruence. Qed.

Lemma append_empty_r s : (s ++ "")%string = s.
Proof. induction s as [|c s IH]; simpl; [|rewrite IH]; reflexivity. Qed.

Lemma append_assoc a b c : ((a ++ b) ++ c)%string = (a ++ (b ++ c))%string.
Proof. induction a as [|x a IH]; simpl; [|rewrite IH]; reflexivity. Qed.

Lemma length_append a b :
  String.length (a ++ b) = String.length a + String.length b.
Proof. induction a as [|x a IH]; simpl; [|rewrite IH]; reflexivity. Qed.


(** *** [strip] *)

Lemma lstrip_empty_iff s :
  lstrip s = EmptyString <-> forallb Char.is_space s = true.
Proof.
  induction s as [|c s IH]; simpl; [tauto|].
  destruct (Char.is_space c); simpl; [exact IH|].
  split; discriminate.
Qed.

Lemma lstrip_head s c r :
  lstrip s = String c r -> Char.is_space c = false.
Proof.
  induction s as [|d s IH]; simpl; [discriminate|].
  destruct (Char.is_space d) eqn:E; [exact IH|].
  intros H; inversion H; subst; exact E.
Qed.

Lemma rstrip_head c s :
  Char.is_space c = false -> rstrip (String c s) = String c (rstrip s).
Proof. intros H; simpl; rewrite H; reflexivity. Qed.

Lemma rstrip_idempotent s : rstrip (rstrip s) = rstrip s.
Proof.
  induction s as [|c s IH]; simpl; [reflexivity|].
  destruct (Char.is_space c && is_empty (rstrip s)) eqn:E; [reflexivity|].
  simpl. rewrite IH, E. reflexivity.
Qed.

Lemma strip_empty_iff s :
  strip s = EmptyString <-> forallb Char.is_space s = true.
Proof.
  unfold strip. rewrite <- lstrip_empty_iff.
  destruct (lstrip s) as [|c r] eqn:E; [simpl; tauto|].
  rewrite (rstrip_head _ _ (lstrip_head _ _ _ E)).
  split; discriminate.
Qed.

Lemma trimmed_strip s : trimmed s -> strip s = s.
Proof. intros (_ & Hl & Hr). unfold strip. rewrite Hl. exact Hr. Qed.

Lemma strip_trimmed s : strip s <> EmptyString -> trimmed (strip s).
Proof.
  intros Hne. split; [exact Hne|]. unfold strip in *.
  destruct (lstrip s) as [|c r] eqn:E; [exfalso; apply Hne; reflexivity|].
  pose proof (lstrip_head _ _ _ E) as Hc.
  split.
  - rewrite (rstrip_head _ _ Hc). simpl. rewrite Hc. reflexivity.
  - apply rstrip_idempotent.
Qed.




(** *** [collapse] *)

Lemma collapse_from_blank b s :
  forallb Char.is_space (collapse_from b s) = forallb Char.is_space s.
Proof.
  revert b; induction s as [|c s IH]; intros b; simpl; [reflexivity|].
  destruct (Char.is_space c) eqn:E.
  - destruct b; simpl; rewrite IH; reflexivity.
  - simpl. rewrite E. reflexivity.
Qed.

(** The text that the token loop buffers is not empty. *)
Lemma normalized_nonempty token :
  strip token <> EmptyString -> strip (collapse token) <> EmptyString.
Proof.
  intros H Hc. apply H. apply strip_empty_iff.
  apply strip_empty_iff in Hc. unfold collapse in Hc.
  rewrite collapse_from_blank in Hc. exact Hc.
Qed.

(** *** [join] *)





End StrFacts.

(** ** Facts about the tokenizer *)

Module TokenizerFacts.

Import Str StrFacts Tokenizer.
Local Open Scope nat_scope.

Lemma span_append p s t r : span p s = (t, r) -> s = (t ++ r)%string.
Proof.
  revert t r; induction s as [|c s IH]; simpl; intros t r H.
  - inversion H; reflexivity.
  - destruct (p c).
    + destruct (span p s) as [t' r']. inversion H; subst.
      simpl. rewrite (IH t' r eq_refl) at 1. reflexivity.
    + inversion H; reflexivity.
Qed.

Lemma span_forallb p s t r : span p s = (t, r) -> Str.forallb p t = true.
Proof.
  revert t r; induction s as [|c s IH]; simpl; intros t r H.
  - inversion H; reflexivity.
  - destruct (p c) eqn:Hc.
    + destruct (span p s) as [t' r']. inversion H; subst.
      simpl. rewrite Hc. exact (IH t' r eq_refl).
    + inversion H; reflexivity.
Qed.

(** A run of the class that stops at a character outside it, or at the
    end of the text. *)
Lemma span_stop p a b :
  Str.forallb p a = true ->
  match b with EmptyString => True | String c _ => p c = false end ->
  span p (a ++ b) = (a, b).
Proof.
  intros Ha Hb. induction a as [|c a IH]; simpl in *.
  - destruct b as [|d b]; [reflexivity|]. simpl. rewrite Hb. reflexivity.
  - apply andb_true_iff in Ha as [Hc Ha]. rewrite Hc, (IH Ha). reflexivity.
Qed.

Lemma after_prefix_append p s r :
  after_prefix p s = Some r -> s = (p ++ r)%string.
Proof.
  revert s; induction p as [|a p IH]; intros s H; simpl in *.
  - inversion H; reflexivity.
  - destruct s as [|b s]; [discriminate|].
    destruct (Ascii.eqb_spec a b) as [->|]; [|discriminate].
    rewrite (IH s H). reflexivity.
Qed.

Lemma run_then_close_append p s t rest :
  run_then_close p s = Some (t, rest) ->
  s = (t ++ String "]" rest)%string /\ t <> EmptyString
  /\ Str.forallb p t = true.
Proof.
  unfold run_then_close. destruct (span p s) as [[|c t'] [|d r]] eqn:E;
    try discriminate.
  destruct (Ascii.eqb_spec d "]") as [->|]; [|discriminate].
  intros H; inversion H; subst.
  split; [exact (span_append _ _ _ _ E)|].
  split; [discriminate|exact (span_forallb _ _ _ _ E)].
Qed.

Lemma run_then_close_stop p t rest :
  t <> EmptyString -> Str.forallb p t = true -> p "]"%char = false ->
  run_then_close p (t ++ String "]" rest) = Some (t, rest).
Proof.
  intros Hne Ht Hp. unfold run_then_close.
  rewrite (span_stop p t (String "]" rest) Ht Hp).
  destruct t; [congruence|reflexivity].
Qed.

(** What the first alternative matches, the second matches the same. *)
Lemma match_pause_tag s r : match_pause s = Some r -> match_tag s = Some r.
Proof.
  unfold match_pause, match_tag.
  destruct (after_prefix "[pause:" s) as [s'|] eqn:Hp; [|discriminate].
  apply after_prefix_append in Hp. subst s.
  destruct (run_then_close digit_or_dot s') as [[d rest]|] eqn:Hr;
    [|discriminate].
  intros H; inversion H; subst. clear H.
  apply run_then_close_append in Hr as (-> & Hne & Hd).
  change (after_prefix "[" ("[pause:" ++ d ++ String "]" rest))
    with (Some (("pause:" ++ d) ++ String "]" rest)%string).
  cbv beta iota.
  rewrite run_then_close_stop; [reflexivity|discriminate| |reflexivity].
  change (Str.forallb not_close ("pause:" ++ d))
    with (Str.forallb not_close d).
  clear -Hd. induction d as [|c d IH]; [reflexivity|].
  simpl in *. apply andb_true_iff in Hd as [Hc Hd]. rewrite (IH Hd).
  rewrite andb_true_r. unfold not_close.
  destruct (Ascii.eqb_spec c "]") as [->|]; [discriminate|reflexivity].
Qed.

Lemma match_token_tag s r : match_tag s = Some r -> match_token s = Some r.
Proof.
  intros H. unfold match_token.
  destruct (match_pause s) as [r'|] eqn:Hp.
  - apply match_pause_tag in Hp. simpl. congruence.
  - simpl. rewrite H. reflexivity.
Qed.

(** A token is taken off the front of the text, and is not empty. *)
Lemma match_token_shorter s token rest :
  match_token s = Some (token, rest) ->
  String.length rest < String.length s.
Proof.
  unfold match_token, or_else.
  destruct (match_pause s) as [r|] eqn:Hp.
  { apply match_pause_tag in Hp. intros H; rewrite H in Hp. clear H.
    unfold match_tag in Hp.
    destruct (after_prefix "[" s) as [s'|] eqn:Ha; [|discriminate].
    apply after_prefix_append in Ha. subst s.
    destruct (run_then_close not_close s') as [[i r']|] eqn:Hr;
      [|discriminate].
    inversion Hp; subst.
    apply run_then_close_append in Hr as (-> & _ & _).
    simpl. rewrite length_append. simpl. lia. }
  destruct (match_tag s) as [r|] eqn:Ht.
  { intros H; rewrite H in Ht. clear H. unfold match_tag in Ht.
    destruct (after_prefix "[" s) as [s'|] eqn:Ha; [|discriminate].
    apply after_prefix_append in Ha. subst s.
    destruct (run_then_close not_close s') as [[i r']|] eqn:Hr;
      [|discriminate].
    inversion Ht; subst.
    apply run_then_close_append in Hr as (-> & _ & _).
    simpl. rewrite length_append. simpl. lia. }
  destruct (match_close s) as [r|] eqn:Hc.
  { intros H; rewrite H in Hc. clear H. unfold match_close in Hc.
    destruct (after_prefix "[/]" s) as [s'|] eqn:Ha; [|discriminate].
    apply after_prefix_append in Ha. inversion Hc; subst. simpl. lia. }
  unfold match_text. destruct (span not_bracket s) as [[|c t] r] eqn:Hs;
    [discriminate|].
  intros H; inversion H; subst.
  apply span_append in Hs. subst s. simpl. rewrite length_append. lia.
Qed.

(** The scan never runs out of fuel: any amount that covers the text
    gives the same tokens. *)
Lemma scan_fuel n : forall m s,
  String.length s <= n -> String.length s <= m -> scan n s = scan m s.
Proof.
  induction n as [|n IH]; intros m s Hn Hm.
  - destruct s; [|simpl in Hn; lia]. destruct m; reflexivity.
  - destruct s as [|c s]; [destruct m; reflexivity|].
    destruct m as [|m]; [simpl in Hm; lia|].
    cbn [scan].
    destruct (match_token (String c s)) as [[token rest]|] eqn:E.
    + apply match_token_shorter in E. simpl in Hn, Hm, E.
      f_equal. apply IH; lia.
    + simpl in Hn, Hm. apply IH; lia.
Qed.

Lemma findall_scan n s : String.length s <= n -> findall s = scan n s.
Proof. intros H. unfold findall. apply scan_fuel; lia. Qed.

Lemma after_prefix_no_bracket p s :
  no_bracket s = true -> after_prefix (String "[" p) s = None.
Proof.
  destruct s as [|c s]; [reflexivity|]. unfold no_bracket.
  cbn [Str.forallb after_prefix]. intros H.
  apply andb_true_iff in H as [Hc _]. apply negb_true_iff in Hc.
  unfold Char.is_bracket in Hc. apply orb_false_iff in Hc as [Hc _].
  rewrite Ascii.eqb_sym, Hc. reflexivity.
Qed.

(** A text without brackets is one text run. *)
Lemma findall_no_bracket s :
  no_bracket s = true -> s <> EmptyString -> findall s = [s].
Proof.
  intros H Hne.
  assert (Hm : match_token s = Some (s, EmptyString)).
  { unfold match_token, match_pause, match_tag, match_close.
    rewrite !(after_prefix_no_bracket _ _ H). cbn [or_else].
    unfold match_text.
    pose proof (span_stop not_bracket s EmptyString H I) as Hs.
    rewrite append_empty_r in Hs. rewrite Hs.
    destruct s; [congruence|reflexivity]. }
  destruct s as [|c s]; [congruence|].
  unfold findall. cbn [String.length scan]. rewrite Hm.
  destruct (String.length s); reflexivity.
Qed.


(** *** The shape of a token *)

Lemma substring_append p : forall d r,
  substring (String.length p) (String.length d) (p ++ d ++ r) = d.
Proof.
  induction p as [|c p IH]; intros d r; simpl.
  - revert r. induction d as [|x d IHd]; intros r; simpl.
    + destruct r; reflexivity.
    + rewrite IHd. reflexivity.
  - apply IH.
Qed.

Lemma endswith_bracket s : endswith "]" (s ++ "]") = true.
Proof.
  unfold endswith. rewrite length_append. simpl String.length.
  replace (String.length s + 1 - 1) with (String.length s) by lia.
  pose proof (substring_append s "]" "") as H. simpl in H.
  change (String.length "]") with 1 in H. rewrite H.
  replace (1 <=? String.length s + 1) with true
    by (symmetry; apply Nat.leb_le; lia).
  reflexivity.
Qed.

Lemma slice_to_last_append p d :
  slice_to_last (String.length p) (p ++ d ++ "]") = d.
Proof.
  unfold slice_to_last. rewrite !length_append. simpl String.length.
  replace (String.length p + (String.length d + 1) - 1 - String.length p)
    with (String.length d) by lia.
  apply substring_append.
Qed.

End TokenizerFacts.

(** ** Facts about the helpers on lists *)

Section ListFacts.

Context {A : Type}.

Lemma interleave_length (sep : A) l :
  List.length (interleave sep l) = 2 * List.length l - 1.
Proof.
  induction l as [|x l IH]; [reflexivity|].
  destruct l as [|y l]; [reflexivity|].
  change (interleave sep (x :: y :: l))
    with (x :: sep :: interleave sep (y :: l)).
  simpl List.length in *. lia.
Qed.

Lemma interleave_even (sep : A) l : forall i,
  nth_error (interleave sep l) (2 * i) = nth_error l i.
Proof.
  induction l as [|x l IH]; intros i.
  - simpl. destruct (i + (i + 0)); destruct i; reflexivity.
  - destruct i as [|i]; [destruct l; reflexivity|].
    destruct l as [|y l].
    + simpl. replace (i + S (i + 0)) with (S (2 * i)) by lia.
      simpl. destruct (i + (i + 0)); destruct i; reflexivity.
    + change (interleave sep (x :: y :: l))
        with (x :: sep :: interleave sep (y :: l)).
      replace (2 * S i) with (S (S (2 * i))) by lia.
      simpl nth_error at 1 2. apply IH.
Qed.

Lemma interleave_odd (sep : A) l : forall i,
  i + 1 < List.length l -> nth_error (interleave sep l) (2 * i + 1) = Some sep.
Proof.
  induction l as [|x l IH]; intros i Hi; [simpl in Hi; lia|].
  destruct l as [|y l]; [simpl in Hi; lia|].
  change (interleave sep (x :: y :: l))
    with (x :: sep :: interleave sep (y :: l)).
  destruct i as [|i]; [reflexivity|].
  replace (2 * S i + 1) with (S (S (2 * i + 1))) by lia.
  simpl nth_error at 1. apply IH. simpl in *. lia.
Qed.

Lemma update_last_snoc (f : A -> A) l x :
  update_last f (l ++ [x]) = l ++ [f x].
Proof.
  induction l as [|y l IH]; [reflexivity|].
  simpl app. destruct (l ++ [x]) as [|z t] eqn:E.
  - destruct l; discriminate.
  - change (update_last f (y :: z :: t)) with (y :: update_last f (z :: t)).
    rewrite IH. reflexivity.
Qed.

Lemma update_last_length (f : A -> A) l :
  List.length (update_last f l) = List.length l.
Proof.
  induction l as [|y l IH]; [reflexivity|].
  destruct l as [|z t]; [reflexivity|].
  change (update_last f (y :: z :: t)) with (y :: update_last f (z :: t)).
  simpl List.length in *. rewrite IH. reflexivity.
Qed.

End ListFacts.

Lemma for_each_app {A S : Type} (body : S -> A -> result S) l1 l2 s :
  for_each body (l1 ++ l2) s = (s' <- for_each body l1 s ;; for_each body l2 s').
Proof.
  revert s; induction l1 as [|x l1 IH]; intros s; simpl; [reflexivity|].
  destruct (body s x); simpl; [apply IH|reflexivity].
Qed.

(** ** The phonetic table and the character classes *)

(** The table has 36 entries, and a character is spelled through it when
    it is an ASCII letter, of either case, or a digit. *)
Lemma table_size : List.length _PHONETIC_SPELLING_MAP = 36.
Proof. reflexivity. Qed.

Lemma in_table_alnum c : in_table c = is_alnum c.
Proof.
  destruct c as [[] [] [] [] [] [] [] []]; vm_compute; reflexivity.
Qed.

Lemma in_table_not_space c : in_table c = true -> Char.is_space c = false.
Proof.
  destruct c as [[] [] [] [] [] [] [] []]; vm_compute; congruence.
Qed.

Lemma in_table_not_punct c : in_table c = true -> Char.is_punct c = false.
Proof.
  destruct c as [[] [] [] [] [] [] [] []]; vm_compute; congruence.
Qed.

Lemma in_table_trimmed s :
  s <> EmptyString -> Str.forallb in_table s = true -> trimmed s.
Proof.
  intros Hne H. split; [exact Hne|].
  clear Hne. induction s as [|c s IH]; [split; reflexivity|].
  simpl in H. apply andb_true_iff in H as [Hc Hs].
  apply in_table_not_space in Hc. destruct (IH Hs) as [_ Hr].
  split; simpl; rewrite Hc; [reflexivity|].
  simpl. rewrite Hr. reflexivity.
Qed.

(** ** The flush *)

Section Flush.

Variable spell_pause_duration : float.

Local Notation "'flush'" := (_flush_text_buffer spell_pause_duration).

Lemma flush_empty_buffer st :
  current_text_buffer st = [] -> flush st = Ok st.
Proof. intros H. unfold _flush_text_buffer. rewrite H. reflexivity. Qed.

(** A flush of a buffer that holds text, from the scope [top]. *)
Lemma flush_buffer st top below :
  attribute_stack st = top :: below ->
  current_text_buffer st <> [] ->
  flush st =
  Ok (let text_content := Str.strip (Str.join " " (current_text_buffer st)) in
      mkState (fst (emit spell_pause_duration text_content top st))
              (set_float top PauseBefore 0 :: below) []
              (snd (emit spell_pause_duration text_content top st))).
Proof.
  intros Hs Hb. unfold _flush_text_buffer. rewrite Hs.
  destruct (current_text_buffer st) as [|x b]; [congruence|].
  cbv zeta. destruct (emit _ _ _ _). reflexivity.
Qed.

(** A plain or spelled flush: text to emit, and no punctuation merge. *)
Lemma emit_new text_content top st :
  text_content <> EmptyString ->
  merge_applies text_content (segments st) = false ->
  emit spell_pause_duration text_content top st =
  (segments st ++
     (if truthy (spell top)
      then spelled_segments spell_pause_duration text_content top
      else [segment_of text_content (pause_before top) 0 top]),
   true).
Proof.
  intros Hne Hm. unfold emit.
  apply StrFacts.is_empty_false in Hne. rewrite Hne, Hm.
  destruct (truthy (spell top)); reflexivity.
Qed.

Lemma spelled_segments_pauses text_content top :
  Forall (fun s => seg_pause_before s = 0%float
                   \/ seg_pause_before s = spell_pause_duration)
         (spelled_segments spell_pause_duration text_content top).
Proof.
  unfold spelled_segments.
  induction (List.map spell_char (Str.chars text_content)) as [|x l IH];
    [constructor|].
  destruct l as [|y l]; simpl.
  - constructor; [left; reflexivity|constructor].
  - constructor; [left; reflexivity|].
    constructor; [right; reflexivity|]. exact IH.
Qed.

(** C5.  A buffered run of [k >= 1] letters and digits, flushed from a
    scope whose spell flag is set, appends exactly [2k - 1] segments: at
    the even places the segments whose text is the phonetic string of the
    characters, in their order, with both pauses 0, and at the odd places
    between them the [k - 1] segments of empty text whose [pause_before]
    is the spell pause duration and whose [pause_after] is 0; all of them
    have the rate, the pitch and the volume of the scope; the last
    segment is the sound of the last character.  It holds for every spell
    pause duration, the positive ones among them. *)
Theorem spelled_flush_of_alnum_run st top below run :
  attribute_stack st = top :: below ->
  current_text_buffer st = [run] ->
  run <> EmptyString ->
  Str.forallb in_table run = true ->
  truthy (spell top) = true ->
  exists added,
    flush st
    = Ok (mkState (segments st ++ added)
            (mkAttrs (rate top) (pitch top) (volume top) 0 (pause_after top)
               (spell top) :: below)
            [] true)
    /\ List.length added = 2 * String.length run - 1
    /\ (forall i c, nth_error (Str.chars run) i = Some c ->
          exists phonetic,
            table_get (Char.upper c) _PHONETIC_SPELLING_MAP = Some phonetic
            /\ nth_error added (2 * i)
               = Some (mkSegment phonetic 0 0 (rate top) (pitch top)
                         (volume top) false None 0 0 0))
    /\ (forall i, i + 1 < String.length run ->
          nth_error added (2 * i + 1)
          = Some (mkSegment "" spell_pause_duration 0 (rate top) (pitch top)
                    (volume top) false None 0 0 0)).
Proof.
  intros Hs Hb Hne Htab Hsp.
  exists (spelled_segments spell_pause_duration run top).
  assert (Hlen : List.length (List.map spell_char (Str.chars run))
                 = String.length run).
  { rewrite length_map. clear. induction run; simpl; congruence. }
  split; [|split; [|split]].
  - rewrite (flush_buffer st top below Hs) by (rewrite Hb; discriminate).
    rewrite Hb. cbv zeta. simpl Str.join.
    rewrite (StrFacts.trimmed_strip run (in_table_trimmed run Hne Htab)).
    rewrite emit_new; [rewrite Hsp; reflexivity|exact Hne|].
    unfold merge_applies. destruct run as [|c r]; [congruence|].
    simpl in Htab. apply andb_true_iff in Htab as [Hc _].
    simpl. rewrite (in_table_not_punct c Hc). reflexivity.
  - unfold spelled_segments.
    rewrite interleave_length, length_map, Hlen. reflexivity.
  - intros i c Hi. unfold spelled_segments.
    rewrite interleave_even, !nth_error_map.
    rewrite Hi. cbn [option_map].
    assert (Hin : in_table c = true).
    { apply nth_error_In in Hi. clear -Hi Htab.
      induction run as [|d r IH]; simpl in *; [contradiction|].
      apply andb_true_iff in Htab as [Hd Hr].
      destruct Hi as [<-|Hi]; [exact Hd|exact (IH Hr Hi)]. }
    unfold in_table in Hin. unfold spell_char.
    destruct (table_get (Char.upper c) _PHONETIC_SPELLING_MAP) as [phonetic|];
      [|discriminate].
    exists phonetic. split; reflexivity.
  - intros i Hi. unfold spelled_segments.
    apply interleave_odd. rewrite length_map, Hlen. exact Hi.
Qed.

(** What a flush that emits new segments does with the [pause_before] of
    its scope: it resets it to 0; when the scope does not spell, the one
    segment produced has got it; when the scope spells, every segment
    produced has a [pause_before] of 0 or of the spell pause duration. *)
Lemma flush_consumes_pause_before st top below :
  attribute_stack st = top :: below ->
  current_text_buffer st <> [] ->
  let text_content := Str.strip (Str.join " " (current_text_buffer st)) in
  text_content <> EmptyString ->
  merge_applies text_content (segments st) = false ->
  exists added top',
    flush st = Ok (mkState (segments st ++ added) (top' :: below) [] true)
    /\ pause_before top' = 0%float
    /\ (truthy (spell top) = false ->
        added = [segment_of text_content (pause_before top) 0 top])
    /\ (truthy (spell top) = true ->
        Forall (fun s => seg_pause_before s = 0%float
                         \/ seg_pause_before s = spell_pause_duration)
               added).
Proof.
  intros Hs Hb text_content Hne Hm.
  exists (if truthy (spell top)
          then spelled_segments spell_pause_duration text_content top
          else [segment_of text_content (pause_before top) 0 top]).
  exists (set_float top PauseBefore 0).
  split; [|split; [reflexivity|split]].
  - rewrite (flush_buffer st top below Hs Hb). cbv zeta.
    fold text_content. rewrite (emit_new _ _ _ Hne Hm). reflexivity.
  - intros ->. reflexivity.
  - intros ->. apply spelled_segments_pauses.
Qed.

End Flush.

(** ** The branches of the token loop *)

Lemma key_of_string_spell name :
  key_of_string name = Some Spell -> name = "spell".
Proof.
  unfold key_of_string.
  repeat match goal with
         | |- context [(?a =? ?b)%string] =>
             destruct (String.eqb_spec a b); [try discriminate|]
         end; [intros _; assumption|discriminate].
Qed.

Section Steps.

Variable py_float : string -> option float.
Variable emotion_presets : PresetTable.
Variable modifier_presets : PresetTable.
Variable spell_pause_duration : float.

Local Notation "'flush'" := (_flush_text_buffer spell_pause_duration).
Local Notation "'step_'" :=
  (step py_float emotion_presets modifier_presets spell_pause_duration).
Local Notation "'apply_'" :=
  (apply_attribute py_float emotion_presets modifier_presets).

(** *** Pause tags *)

Lemma step_pause_token st d :
  step_ st (pause_token d) =
  (st' <- flush st ;;
   match py_float d with
   | Some v =>
       match segments st' with
       | _ :: _ =>
           Ok (mkState (update_last (add_pause_after v) (segments st'))
                 (attribute_stack st') (current_text_buffer st')
                 (text_segment_created st'))
       | [] =>
           match attribute_stack st' with
           | [] => Raise IndexError
           | top :: below =>
               Ok (mkState (segments st')
                     (set_float top PauseBefore (pause_before top + v)%float
                        :: below)
                     (current_text_buffer st') (text_segment_created st'))
           end
       end
   | None => Ok st'
   end).
Proof.
  unfold step, pause_token.
  replace (Str.endswith "]" ("[pause:" ++ d ++ "]")) with true.
  2:{ symmetry. rewrite <- StrFacts.append_assoc.
      apply TokenizerFacts.endswith_bracket. }
  change (Str.startswith "[" ("[pause:" ++ d ++ "]")) with true.
  change (("[pause:" ++ d ++ "]" =? "[/]")%string) with false.
  change (Str.startswith "[pause:" ("[pause:" ++ d ++ "]")) with true.
  cbn [andb]. unfold pause_tag.
  pose proof (TokenizerFacts.slice_to_last_append "[pause:" d) as Hd.
  change (String.length "[pause:") with 7 in Hd. rewrite Hd.
  reflexivity.
Qed.

(** C1, as the code has it.  A pause token first flushes the text buffer.
    Then, when its duration reads as the float [v]: if the flushed state has
    segments, [v] is added to the [pause_after] of the last one and nothing
    else changes (so that successive pause tags add up); if it has none, [v]
    is added to the [pause_before] of the active scope, the top of the
    stack.  When the duration does not read as a float, the state is left
    as the flush made it. *)
Theorem pause_token_effect st st' d :
  flush st = Ok st' ->
  (py_float d = None -> step_ st (pause_token d) = Ok st')
  /\ (forall v, py_float d = Some v ->
        (forall segs s, segments st' = segs ++ [s] ->
           step_ st (pause_token d)
           = Ok (mkState
                   (segs ++ [mkSegment (text s) (seg_pause_before s)
                               (seg_pause_after s + v)%float (seg_rate s)
                               (seg_pitch s) (seg_volume s) (seg_spell s)
                               (voice s) (start_time s) (end_time s)
                               (duration s)])
                   (attribute_stack st')
                   (current_text_buffer st') (text_segment_created st')))
        /\ (forall top below,
              segments st' = [] -> attribute_stack st' = top :: below ->
              step_ st (pause_token d)
              = Ok (mkState []
                      (mkAttrs (rate top) (pitch top) (volume top)
                         (pause_before top + v)%float (pause_after top)
                         (spell top)
                         :: below)
                      (current_text_buffer st') (text_segment_created st')))).
Proof.
  intros Hf. rewrite step_pause_token, Hf. cbn [bind].
  split; [intros ->; reflexivity|].
  intros v ->. split.
  - intros segs s Hs. rewrite Hs, update_last_snoc.
    destruct (segs ++ [s]) eqn:E; [destruct segs; discriminate|reflexivity].
  - intros top below Hs Ha. rewrite Hs, Ha. reflexivity.
Qed.


(** *** Close tags *)

Lemma close_tag_at_root st root :
  attribute_stack st = [root] -> close_tag spell_pause_duration st = flush st.
Proof.
  intros Hs. unfold close_tag.
  destruct (current_text_buffer st) as [|x b] eqn:Hb.
  - rewrite (flush_empty_buffer _ _ Hb). cbn [bind]. rewrite Hs. reflexivity.
  - rewrite (flush_buffer _ st root [] Hs) by (rewrite Hb; discriminate).
    reflexivity.
Qed.

Lemma step_close st : step_ st "[/]" = close_tag spell_pause_duration st.
Proof. reflexivity. Qed.

(** *** Attribute tokens *)

Lemma apply_key_value acc raw :
  let attr := Str.lower (Str.strip raw) in
  let name := Str.strip (fst (Str.split_once ":" attr)) in
  let value := Str.strip (snd (Str.split_once ":" attr)) in
  Str.contains ":" attr = true ->
  apply_ acc raw =
  if (name =? "spell")%string
  then Ok (set_spell (fst acc)
             ((Str.lower value =? "true")%string || (value =? "1")%string),
           Spell :: snd acc)
  else match key_of_string name with
       | Some k => match py_float value with
                   | Some f => Ok (set_float (fst acc) k f, k :: snd acc)
                   | None => Ok acc
                   end
       | None => Ok acc
       end.
Proof.
  intros attr name value Hc. unfold apply_attribute. fold attr. rewrite Hc.
  unfold name, value. destruct (Str.split_once ":" attr). reflexivity.
Qed.


(** C9.  A bare token, one without a colon and other than [spell], that
    names a preset of the emotion table is resolved with the multipliers of
    that table alone, whatever the modifier table holds under the same
    name; the modifier table is looked up only for a name that the emotion
    table does not have. *)
Theorem emotion_table_first acc raw :
  let name := Str.lower (Str.strip raw) in
  Str.contains ":" name = false ->
  name <> "spell" ->
  (forall p, lookup name emotion_presets = Some p ->
     apply_ acc raw = apply_preset p acc)
  /\ (forall p, lookup name emotion_presets = None ->
        lookup name modifier_presets = Some p ->
        apply_ acc raw = apply_preset p acc)
  /\ (lookup name emotion_presets = None ->
      lookup name modifier_presets = None ->
      apply_ acc raw = Ok acc).
Proof.
  intros name Hc Hn. apply String.eqb_neq in Hn.
  unfold apply_attribute. fold name. rewrite Hc, Hn.
  split; [|split].
  - intros p ->. reflexivity.
  - intros p -> ->. reflexivity.
  - intros -> ->. reflexivity.
Qed.

End Steps.

(** ** Well-formed preset tables *)

Lemma lookup_forallb (q : string * Preset -> bool) name t p :
  List.forallb q t = true -> lookup name t = Some p ->
  exists n, q (n, p) = true.
Proof.
  induction t as [|[n p'] t IH]; simpl; intros H Hl; [discriminate|].
  apply andb_true_iff in H as [Hq Ht].
  destruct (n =? name)%string.
  - inversion Hl; subst. exists n. exact Hq.
  - exact (IH Ht Hl).
Qed.

Lemma presets_numeric_ok t : presets_numeric t = true -> presets_ok t = true.
Proof.
  unfold presets_numeric, presets_ok. intros H.
  apply forallb_forall. intros entry Hin.
  apply (proj1 (forallb_forall _ _) H) in Hin.
  unfold preset_keys_in in *. apply forallb_forall. intros item Hi.
  apply (proj1 (forallb_forall _ _) Hin) in Hi.
  destruct (key_of_string (fst item)) as [k|]; [|discriminate].
  destruct k; simpl in *; congruence.
Qed.

(** A float times a multiplier that fits. *)
Lemma multiply_float a k m :
  multiplier_fits k m = true ->
  exists b, multiply (PyFloat a) m = Ok (PyFloat b).
Proof.
  destruct m as [b|n|]; cbn [multiplier_fits multiply as_float].
  - intros _. eexists. reflexivity.
  - intros H. apply andb_true_iff in H as [_ H].
    destruct (float_of_int n); [eexists; reflexivity|discriminate].
  - discriminate.
Qed.

(** [spell] times a multiplier that fits it, when [spell] is no [int]. *)
Lemma multiply_spell v m :
  not_int v = true -> multiplier_fits Spell m = true ->
  exists b, multiply v m = Ok (PyFloat b).
Proof.
  destruct m as [b|n|]; cbn [multiplier_fits key_eqb negb andb];
    try discriminate.
  intros Hv _. destruct v; [|discriminate|]; eexists; reflexivity.
Qed.

(** A preset with known keys and multipliers that fit raises nothing. *)
Lemma apply_preset_ok allowed p : forall acc,
  preset_keys_in allowed p = true ->
  (List.existsb (key_eqb Spell) allowed = true ->
   not_int (spell (fst acc)) = true) ->
  exists acc', apply_preset p acc = Ok acc'
    /\ (not_int (spell (fst acc)) = true ->
        not_int (spell (fst acc')) = true)
    /\ (List.existsb (key_eqb Spell) allowed = false ->
        spell (fst acc') = spell (fst acc)).
Proof.
  induction p as [|[name value] p IH]; intros acc H Hv; simpl in *.
  - exists acc. repeat split. tauto.
  - apply andb_true_iff in H as [Hk Hp].
    destruct (key_of_string name) as [k|]; [|discriminate].
    apply andb_true_iff in Hk as [Hk Hfit].
    assert (Hm : exists b, multiply (get (fst acc) k) value = Ok (PyFloat b)).
    { destruct k; try exact (multiply_float _ _ _ Hfit).
      exact (multiply_spell _ _ (Hv Hk) Hfit). }
    destruct Hm as (b & ->). cbn [bind].
    destruct (IH (set_value (fst acc) k (PyFloat b), k :: snd acc) Hp)
      as (acc' & -> & Hv' & Hs).
    { intros Hin. destruct k; try exact (Hv Hin). reflexivity. }
    exists acc'. split; [reflexivity|]. split.
    + intros H0. apply Hv'. destruct k; try exact H0. reflexivity.
    + intros Hno. rewrite (Hs Hno). simpl.
      destruct k; try reflexivity. rewrite Hno in Hk. discriminate.
Qed.


(** ** The parser never raises *)

Lemma for_each_ok {A S : Type} (body : S -> A -> result S) (P : S -> Prop) :
  (forall s x, P s -> exists s', body s x = Ok s' /\ P s') ->
  forall l s, P s -> exists s', for_each body l s = Ok s' /\ P s'.
Proof.
  intros Hbody. induction l as [|x l IH]; intros s Hs; simpl.
  - exists s. split; [reflexivity|exact Hs].
  - destruct (Hbody s x Hs) as (s1 & -> & H1). cbn [bind]. apply IH. exact H1.
Qed.

Lemma app_not_nil {A : Type} (l added : list A) :
  added <> [] -> l ++ added <> [].
Proof. destruct l; simpl; [tauto|discriminate]. Qed.

Lemma update_last_not_nil {A : Type} (f : A -> A) l :
  l <> [] -> update_last f l <> [].
Proof.
  intros H E. apply (f_equal (@List.length A)) in E.
  rewrite update_last_length in E. destruct l; [congruence|discriminate].
Qed.

Lemma spelled_segments_not_nil d text_content top :
  text_content <> EmptyString -> spelled_segments d text_content top <> [].
Proof.
  destruct text_content as [|c r]; [congruence|]. intros _.
  unfold spelled_segments. simpl.
  destruct (List.map _ (List.map spell_char (Str.chars r))); discriminate.
Qed.

Lemma merge_applies_nil text_content : merge_applies text_content [] = false.
Proof. unfold merge_applies. simpl. apply andb_false_r. Qed.

Section Totality.

Variable py_float : string -> option float.
Variable emotion_presets : PresetTable.
Variable modifier_presets : PresetTable.
Variable spell_pause_duration : float.

Hypothesis emotion_ok : presets_ok emotion_presets = true.
Hypothesis modifier_ok : presets_ok modifier_presets = true.

Local Notation "'flush'" := (_flush_text_buffer spell_pause_duration).
Local Notation "'step_'" :=
  (step py_float emotion_presets modifier_presets spell_pause_duration).
Local Notation "'apply_'" :=
  (apply_attribute py_float emotion_presets modifier_presets).

Lemma apply_attribute_ok acc raw :
  not_int (spell (fst acc)) = true ->
  exists acc', apply_ acc raw = Ok acc'
               /\ not_int (spell (fst acc')) = true.
Proof.
  intros Hv.
  destruct (Str.contains ":" (Str.lower (Str.strip raw))) eqn:Hc.
  - rewrite (apply_key_value _ _ _ acc raw Hc).
    destruct (_ =? "spell")%string eqn:Hn;
      [eexists; split; reflexivity|].
    destruct (key_of_string _) as [k|] eqn:Hk;
      [|exists acc; split; [reflexivity|exact Hv]].
    destruct (py_float _); [|exists acc; split; [reflexivity|exact Hv]].
    eexists. split; [reflexivity|].
    destruct k; try exact Hv.
    apply key_of_string_spell in Hk. apply String.eqb_neq in Hn.
    contradiction.
  - unfold apply_attribute. rewrite Hc.
    destruct (_ =? "spell")%string; [eexists; split; reflexivity|].
    destruct (lookup _ emotion_presets) as [p|] eqn:He.
    + destruct (lookup_forallb _ _ _ _ emotion_ok He) as (n & Hp).
      destruct (apply_preset_ok _ p acc Hp (fun _ => Hv))
        as (acc' & -> & Hv' & _).
      exists acc'. split; [reflexivity|exact (Hv' Hv)].
    + destruct (lookup _ modifier_presets) as [p|] eqn:Hm;
        [|exists acc; split; [reflexivity|exact Hv]].
      destruct (lookup_forallb _ _ _ _ modifier_ok Hm) as (n & Hp).
      destruct (apply_preset_ok _ p acc Hp (fun _ => Hv))
        as (acc' & -> & Hv' & _).
      exists acc'. split; [reflexivity|exact (Hv' Hv)].
Qed.

Lemma apply_attributes_ok top spec :
  not_int (spell top) = true ->
  exists temp,
    _apply_attributes py_float emotion_presets modifier_presets top spec
    = Ok temp
    /\ not_int (spell (fst temp)) = true.
Proof.
  unfold _apply_attributes. intros Hv.
  apply (for_each_ok apply_ (fun acc => not_int (spell (fst acc)) = true));
    [|exact Hv].
  intros s x Hs. exact (apply_attribute_ok s x Hs).
Qed.

Lemma emit_sound text_content top st :
  (text_segment_created st = false -> segments st = []) ->
  (text_segment_created st = true -> segments st <> []) ->
  (snd (emit spell_pause_duration text_content top st) = false ->
   fst (emit spell_pause_duration text_content top st) = [])
  /\ (snd (emit spell_pause_duration text_content top st) = true ->
      fst (emit spell_pause_duration text_content top st) <> []).
Proof.
  intros Hf Ht. unfold emit.
  destruct (Str.is_empty text_content) eqn:He; [split; assumption|].
  apply StrFacts.is_empty_false in He.
  destruct (merge_applies text_content (segments st)) eqn:Hm.
  - simpl. split.
    + intros Hc. rewrite (Hf Hc), merge_applies_nil in Hm. discriminate.
    + intros Hc. apply update_last_not_nil. exact (Ht Hc).
  - destruct (truthy (spell top)); simpl; (split; [discriminate|]); intros _.
    + apply app_not_nil. apply spelled_segments_not_nil. exact He.
    + apply app_not_nil. discriminate.
Qed.

Lemma flush_sound st :
  sound st ->
  exists st', flush st = Ok st' /\ sound st' /\ current_text_buffer st' = [].
Proof.
  intros (Hs & Hf & Ht & Hv).
  destruct (current_text_buffer st) as [|x b] eqn:Hb.
  - exists st. rewrite (flush_empty_buffer _ _ Hb).
    split; [reflexivity|]. split; [|exact Hb].
    split; [|split; [|split]]; assumption.
  - destruct (attribute_stack st) as [|top below] eqn:Ha; [congruence|].
    rewrite (flush_buffer _ st top below Ha) by (rewrite Hb; discriminate).
    eexists. split; [reflexivity|]. cbv zeta.
    split; [|reflexivity]. split; [discriminate|].
    cbn [segments text_segment_created attribute_stack].
    destruct (emit_sound
                (Str.strip (Str.join " " (current_text_buffer st)))
                top st Hf Ht) as [Hf' Ht'].
    split; [exact Hf'|]. split; [exact Ht'|].
    inversion Hv; subst. constructor; assumption.
Qed.

Lemma step_sound st token :
  sound st -> exists st', step_ st token = Ok st' /\ sound st'.
Proof.
  intros Hst. unfold step.
  destruct (Str.startswith "[" token && Str.endswith "]" token).
  - destruct (token =? "[/]")%string.
    + unfold close_tag.
      destruct (flush_sound st Hst)
        as (st' & -> & (Hs' & Hf' & Ht' & Hv') & _).
      cbn [bind].
      destruct (attribute_stack st') as [|a [|b below]] eqn:Ha;
        [congruence| |].
      * exists st'. split; [reflexivity|].
        split; [rewrite Ha; discriminate|].
        split; [exact Hf'|]. split; [exact Ht'|].
        rewrite Ha. exact Hv'.
      * eexists. split; [reflexivity|].
        split; [discriminate|]. split; [exact Hf'|]. split; [exact Ht'|].
        inversion Hv'; assumption.
    + destruct (Str.startswith "[pause:" token).
      * unfold pause_tag.
        destruct (flush_sound st Hst)
          as (st' & -> & (Hs' & Hf' & Ht' & Hv') & _).
        cbn [bind].
        destruct (py_float _) as [d|];
          [|exists st'; split;
            [reflexivity|split; [|split; [|split]]; assumption]].
        destruct (segments st') as [|s segs] eqn:Hseg.
        -- destruct (attribute_stack st') as [|top below]; [congruence|].
           eexists. split; [reflexivity|]. split; [discriminate|].
           split; [intros _; reflexivity|]. split; [exact Ht'|].
           inversion Hv'; subst. constructor; assumption.
        -- eexists. split; [reflexivity|]. split; [exact Hs'|].
           cbn [segments text_segment_created attribute_stack]. split.
           ++ intros Hc. specialize (Hf' Hc). discriminate.
           ++ split; [|exact Hv'].
              intros _. apply update_last_not_nil. discriminate.
      * unfold open_tag. pose proof Hst as (Hs & Hf & Ht & Hv).
        destruct (attribute_stack st) as [|top below] eqn:Ha; [congruence|].
        assert (Htop : not_int (spell top) = true)
          by (inversion Hv; assumption).
        destruct (apply_attributes_ok top (Str.slice_to_last 1 token) Htop)
          as (temp & -> & Htemp).
        cbn [bind].
        destruct (negb _ && attrs_differ top temp).
        -- destruct (flush_sound st)
             as (st' & -> & (Hs' & Hf' & Ht' & Hv') & _).
           { split; [rewrite Ha; discriminate|].
             split; [exact Hf|]. split; [exact Ht|].
             rewrite Ha. exact Hv. }
           cbn [bind]. eexists. split; [reflexivity|].
           split; [discriminate|]. split; [exact Hf'|]. split; [exact Ht'|].
           constructor; assumption.
        -- cbn [bind]. eexists. split; [reflexivity|].
           split; [discriminate|]. split; [exact Hf|]. split; [exact Ht|].
           cbn [attribute_stack]. constructor; [exact Htemp|].
           rewrite Ha. exact Hv.
  - unfold plain_text. destruct (Str.is_empty (Str.strip token)).
    + exists st. split; [reflexivity|exact Hst].
    + eexists. split; [reflexivity|exact Hst].
Qed.

Lemma initial_sound : sound initial.
Proof.
  split; [discriminate|]. split; [reflexivity|]. split; [discriminate|].
  constructor; [reflexivity|constructor].
Qed.

Lemma run_sound tokens :
  exists st,
    run py_float emotion_presets modifier_presets spell_pause_duration tokens
    = Ok st
    /\ sound st /\ current_text_buffer st = [].
Proof.
  unfold run.
  destruct (for_each_ok step_ sound step_sound tokens initial initial_sound)
    as (st & -> & Hst).
  cbn [bind].
  destruct (flush_sound st Hst) as (st' & -> & Hs' & Hb).
  exists st'. split; [reflexivity|split; assumption].
Qed.

Lemma finish_nonempty st :
  sound st -> exists segs, finish st = Ok segs /\ segs <> [].
Proof.
  intros (Hs & Hf & Ht & _). unfold finish.
  destruct (attribute_stack st) as [|top below]; [congruence|].
  destruct (text_segment_created st) eqn:Hcr; cbn [negb andb].
  - rewrite andb_false_r. exists (segments st). split; [reflexivity|].
    exact (Ht eq_refl).
  - rewrite (Hf eq_refl). cbn.
    destruct (0 <? pause_before top)%float; eexists; split;
      try reflexivity; discriminate.
Qed.

(** C6, as the code has it.  With preset tables whose presets name
    attributes of the dictionary, each with a multiplier that is a float
    or, for an attribute other than [spell], an integer that has a float,
    [parse_markup] returns for every input text, without raising, and
    what it returns is a list of at least one segment. *)
Theorem parse_markup_total markup_text :
  exists segs,
    parse_markup py_float emotion_presets modifier_presets
                 spell_pause_duration markup_text = Ok segs
    /\ segs <> [].
Proof.
  unfold parse_markup.
  destruct (run_sound (Tokenizer.findall markup_text)) as (st & -> & Hst & _).
  cbn [bind]. apply finish_nonempty. exact Hst.
Qed.

End Totality.

(** ** Close tags at root *)

Section UnmatchedClose.

Variable py_float : string -> option float.
Variable emotion_presets : PresetTable.
Variable modifier_presets : PresetTable.
Variable spell_pause_duration : float.

Local Notation "'flush'" := (_flush_text_buffer spell_pause_duration).
Local Notation "'step_'" :=
  (step py_float emotion_presets modifier_presets spell_pause_duration).
Local Notation "'run_'" :=
  (run py_float emotion_presets modifier_presets spell_pause_duration).

(** C3, as the code has it.  A close tag met while the stack holds the root
    scope alone does what a flush of the text buffer does, and the stack
    still holds one scope afterwards.  When the buffer is empty at that
    point the tag changes nothing, and the token sequence gives the same
    result with and without it. *)
Theorem unmatched_close_only_flushes before st root :
  for_each step_ before initial = Ok st ->
  attribute_stack st = [root] ->
  for_each step_ (before ++ ["[/]"]) initial = flush st
  /\ (forall st', flush st = Ok st' ->
        List.length (attribute_stack st') = 1)
  /\ (current_text_buffer st = [] ->
      forall after,
        for_each step_ (before ++ "[/]" :: after) initial
        = for_each step_ (before ++ after) initial
        /\ run_ (before ++ "[/]" :: after) = run_ (before ++ after)).
Proof.
  intros Hbefore Hroot.
  assert (Hstep : step_ st "[/]" = flush st).
  { rewrite step_close. apply close_tag_at_root with (root := root).
    exact Hroot. }
  split; [|split].
  - rewrite for_each_app, Hbefore. cbn [bind for_each]. rewrite Hstep.
    destruct (flush st); reflexivity.
  - intros st' Hf.
    destruct (current_text_buffer st) as [|x b] eqn:Hb.
    + rewrite (flush_empty_buffer _ _ Hb) in Hf. inversion Hf; subst.
      rewrite Hroot. reflexivity.
    + rewrite (flush_buffer _ st root [] Hroot) in Hf
        by (rewrite Hb; discriminate).
      inversion Hf; subst. reflexivity.
  - intros Hb after.
    assert (E : for_each step_ (before ++ "[/]" :: after) initial
                = for_each step_ (before ++ after) initial).
    { rewrite !for_each_app, Hbefore. cbn [bind for_each].
      rewrite Hstep, (flush_empty_buffer _ _ Hb). reflexivity. }
    split; [exact E|]. unfold run. rewrite E. reflexivity.
Qed.

End UnmatchedClose.

(** ** White space normalization

    The specification speaks of the text with its runs of white space
    collapsed to one space and its ends trimmed: the words of the text,
    separated by single spaces.  The parser computes
    [re.sub(r'\s+', ' ', token).strip()]; the two agree. *)

Module Normalize.

Import Str StrFacts.

Lemma lstrip_collapse b s :
  lstrip (collapse_from b s) = collapse_from false (lstrip s).
Proof.
  revert b; induction s as [|c s IH]; intros b; [reflexivity|].
  simpl. destruct (Char.is_space c) eqn:E.
  - destruct b; simpl; apply IH.
  - simpl. rewrite E. reflexivity.
Qed.

Lemma words_lstrip s : words (lstrip s) = words s.
Proof.
  induction s as [|c s IH]; [reflexivity|].
  simpl lstrip. destruct (Char.is_space c) eqn:E.
  - rewrite IH. simpl. rewrite E. reflexivity.
  - reflexivity.
Qed.

Lemma words_head c s :
  Char.is_space c = false -> exists w ws, words (String c s) = String c w :: ws.
Proof.
  intros Hc. simpl. rewrite Hc. destruct s as [|d s].
  - eexists _, _. reflexivity.
  - destruct (Char.is_space d); [eexists _, _; reflexivity|].
    destruct (words (String d s)); eexists _, _; reflexivity.
Qed.

Lemma join_cons x ws : join " " (x :: ws) = (x ++ spaced ws)%string.
Proof.
  destruct ws; simpl; [symmetry; apply append_empty_r|reflexivity].
Qed.

Lemma rstrip_collapse s :
  rstrip (String " " (collapse_from true s)) = spaced (words s)
  /\ forall c, Char.is_space c = false ->
       rstrip (String c (collapse_from false s)) = join " " (words (String c s)).
Proof.
  induction s as [|d s [IH1 IH2]].
  - split; [reflexivity|]. intros c Hc. simpl. rewrite Hc. reflexivity.
  - destruct (Char.is_space d) eqn:Hd.
    + split.
      * simpl collapse_from. rewrite Hd. simpl words. rewrite Hd. exact IH1.
      * intros c Hc. simpl collapse_from. rewrite Hd.
        rewrite (rstrip_head _ _ Hc), IH1.
        simpl words. rewrite Hc, Hd.
        change (String c "" :: words s) with ([String c ""] ++ words s).
        simpl app. rewrite join_cons. reflexivity.
    + split.
      * simpl collapse_from. rewrite Hd.
        change (rstrip (String " " (String d (collapse_from false s))))
          with (if Char.is_space " "
                   && is_empty (rstrip (String d (collapse_from false s)))
                then EmptyString
                else String " " (rstrip (String d (collapse_from false s)))).
        rewrite (IH2 d Hd).
        destruct (words_head d s Hd) as (w & ws & E). rewrite E.
        unfold spaced at 1. rewrite join_cons. reflexivity.
      * intros c Hc. simpl collapse_from. rewrite Hd.
        rewrite (rstrip_head _ _ Hc), (IH2 d Hd).
        destruct (words_head d s Hd) as (w & ws & E).
        replace (words (String c (String d s)))
          with (String c (String d w) :: ws).
        -- rewrite E, !join_cons. reflexivity.
        -- change (words (String c (String d s)))
             with (if Char.is_space c then words (String d s)
                   else if Char.is_space d
                        then String c EmptyString :: words (String d s)
                        else match words (String d s) with
                             | w :: ws => String c w :: ws
                             | [] => [String c EmptyString]
                             end).
           rewrite Hc, Hd, E. reflexivity.
Qed.

(** What the token loop buffers is the normalized text of the
    specification. *)
Lemma strip_collapse s : strip (collapse s) = whitespace_normalized s.
Proof.
  unfold strip, collapse, whitespace_normalized.
  rewrite lstrip_collapse, <- words_lstrip.
  destruct (lstrip s) as [|c r] eqn:E; [reflexivity|].
  pose proof (lstrip_head _ _ _ E) as Hc.
  simpl collapse_from. rewrite Hc.
  apply rstrip_collapse. exact Hc.
Qed.

Lemma words_blank s : strip s = EmptyString -> words s = [].
Proof.
  intros H. apply strip_empty_iff in H.
  induction s as [|c s IH]; [reflexivity|].
  simpl in H. apply andb_true_iff in H as [Hc Hs].
  simpl. rewrite Hc. exact (IH Hs).
Qed.

End Normalize.

(** ** Plain text *)

Section PlainText.

Variable py_float : string -> option float.
Variable emotion_presets : PresetTable.
Variable modifier_presets : PresetTable.
Variable spell_pause_duration : float.

Local Notation "'flush'" := (_flush_text_buffer spell_pause_duration).
Local Notation "'step_'" :=
  (step py_float emotion_presets modifier_presets spell_pause_duration).
Local Notation "'parse_'" :=
  (parse_markup py_float emotion_presets modifier_presets
                spell_pause_duration).

Lemma step_plain_text st token :
  Str.startswith "[" token = false -> step_ st token = plain_text token st.
Proof. intros H. unfold step. rewrite H. reflexivity. Qed.

Lemma startswith_no_bracket s :
  no_bracket s = true -> Str.startswith "[" s = false.
Proof.
  destruct s as [|c s]; [reflexivity|]. intros H.
  unfold no_bracket in H. cbn [Str.forallb] in H.
  apply andb_true_iff in H as [Hc _]. apply negb_true_iff in Hc.
  unfold Char.is_bracket in Hc. apply orb_false_iff in Hc as [Hc _].
  cbn [Str.startswith]. rewrite Ascii.eqb_sym, Hc. reflexivity.
Qed.

(** The flush of one buffered run from the root scope of a fresh parse. *)
Lemma flush_first_run n :
  trimmed n ->
  flush (mkState [] [_get_default_attrs] [n] false)
  = Ok (mkState [segment_default n 0] [_get_default_attrs] [] true).
Proof.
  intros Hn.
  rewrite (flush_buffer _ (mkState [] [_get_default_attrs] [n] false)
             _get_default_attrs [] eq_refl) by discriminate.
  cbv zeta. cbn [current_text_buffer]. simpl Str.join.
  rewrite (StrFacts.trimmed_strip n Hn).
  rewrite emit_new; [reflexivity|apply Hn|apply merge_applies_nil].
Qed.

(** C7, as the code has it.  A text that holds no bracket character gives
    exactly one segment: its text is the input with runs of white space
    collapsed to one space and its ends trimmed, which is empty for a blank
    input, and every other field has its default value. *)
Theorem bracket_free_text_one_segment markup_text :
  no_bracket markup_text = true ->
  parse_ markup_text
  = Ok [mkSegment (whitespace_normalized markup_text) 0 0 1 1 1 false None
          0 0 0].
Proof.
  intros Hnb. unfold parse_markup, run.
  destruct markup_text as [|c s] eqn:Es; [reflexivity|].
  rewrite <- Es in *.
  rewrite (TokenizerFacts.findall_no_bracket _ Hnb) by (rewrite Es; discriminate).
  cbn [for_each bind].
  rewrite (step_plain_text _ _ (startswith_no_bracket _ Hnb)).
  unfold plain_text.
  destruct (Str.is_empty (Str.strip markup_text)) eqn:Hblank.
  - apply StrFacts.is_empty_true in Hblank.
    unfold whitespace_normalized. rewrite (Normalize.words_blank _ Hblank).
    reflexivity.
  - apply StrFacts.is_empty_false in Hblank.
    cbn [bind segments attribute_stack current_text_buffer
         text_segment_created initial app].
    rewrite flush_first_run.
    + cbn [bind]. rewrite Normalize.strip_collapse. reflexivity.
    + apply StrFacts.strip_trimmed.
      apply StrFacts.normalized_nonempty. exact Hblank.
Qed.

End PlainText.

(** ** The text of the segments and the text of the input *)





Section SpokenText.

Variable py_float : string -> option float.
Variable emotion_presets : PresetTable.
Variable modifier_presets : PresetTable.
Variable spell_pause_duration : float.

Hypothesis emotion_numeric : presets_numeric emotion_presets = true.
Hypothesis modifier_numeric : presets_numeric modifier_presets = true.

Local Notation "'flush'" := (_flush_text_buffer spell_pause_duration).
Local Notation "'step_'" :=
  (step py_float emotion_presets modifier_presets spell_pause_duration).
Local Notation "'apply_'" :=
  (apply_attribute py_float emotion_presets modifier_presets).











End SpokenText.

(** ** The parser at work

    The runs below use [Decimal.read] for [float()]; each one names its
    preset tables and its spell pause duration. *)

Example findall_mixed :
  Tokenizer.findall "a[/]b [pause:1.5] [x]]y[] [z"
  = ["a"; "[/]"; "b "; "[pause:1.5]"; " "; "[x]"; "y"; " "; "z"].
Proof. vm_compute. reflexivity. Qed.

(** The cases of the test suite, with durations and multipliers that
    binary64 holds exactly. *)
Example initial_pause :
  parse_markup Decimal.read [] [] 0 "[pause:0.75]Hello world!"
  = Ok [segment_default "Hello world!" 0.75].
Proof. vm_compute. reflexivity. Qed.

Example only_pause :
  List.map (fun s => (text s, seg_pause_before s))
    match parse_markup Decimal.read [] [] 0 "[pause:1.5]" with
    | Ok segs => segs
    | Raise _ => []
    end
  = [("", 1.5%float)].
Proof. vm_compute. reflexivity. Qed.

Example spelled_words :
  match parse_markup Decimal.read [] [] 0
          "The [spell]AI[/] system uses [spell]NASA[/] technology." with
  | Ok segs => List.map text segs
  | Raise _ => []
  end
  = ["The"; "AAY"; ""; "Eye"; "system uses"; "En"; ""; "AAY"; ""; "Ess"; "";
     "AAY"; "technology."].
Proof. vm_compute. reflexivity. Qed.

Example punctuation_after_spell :
  match parse_markup Decimal.read lively [] 0
          "[happy]There are three main types of [spell]AI[/]:[/]" with
  | Ok segs => List.map (fun s => (text s, seg_rate s, seg_pitch s)) segs
  | Raise _ => []
  end
  = [("There are three main types of", 1.25%float, 1.5%float);
     ("AAY", 1.25%float, 1.5%float); ("", 1.25%float, 1.5%float);
     ("Eye:", 1.25%float, 1.5%float)].
Proof. vm_compute. reflexivity. Qed.

(** An integer multiplier multiplies as its float does. *)
Example integer_multiplier :
  parse_markup Decimal.read [("fast", [("rate", MInt 2)])] [] 0 "[fast]a"
  = Ok [mkSegment "a" 0 0 2 1 1 false None 0 0 0].
Proof. vm_compute. reflexivity. Qed.

(** An integer multiplier beyond the floats raises [OverflowError], and a
    multiplier that is [null] raises [TypeError]. *)
Example multiplier_without_float :
  parse_markup Decimal.read [("fast", [("rate", MInt (2 ^ 1024))])] [] 0
    "[fast]a" = Raise OverflowError
  /\ parse_markup Decimal.read [("fast", [("rate", MNone)])] [] 0 "[fast]a"
     = Raise TypeError.
Proof. split; vm_compute; reflexivity. Qed.

(** A [spell] that a preset has made an integer beyond the floats cannot
    be multiplied by a float. *)
Example spell_grown_beyond_floats :
  parse_markup Decimal.read
    [("big", [("spell", MInt (2 ^ 1024))]); ("half", [("spell", MFloat 0.5)])]
    [] 0 "[spell,big]a"
  = Ok [mkSegment "AAY" 0 0 1 1 1 false None 0 0 0]
  /\ parse_markup Decimal.read
       [("big", [("spell", MInt (2 ^ 1024))]);
        ("half", [("spell", MFloat 0.5)])]
       [] 0 "[spell,big,half]a"
     = Raise OverflowError.
Proof. split; vm_compute; reflexivity. Qed.

(** *** C1 *)

(** C1 does not hold as stated.  In ["[x][pause:1][/]a"] the pause tag is
    met with no segment yet and with two scopes on the stack: the duration
    goes to the scope opened by [[x]], the root scope keeps its
    [pause_before] of 0, and the close tag then discards the scope that
    held the pause, which the segment of ["a"] never gets. *)
Lemma pause_goes_to_active_scope :
  exists st st',
    for_each (step Decimal.read [] [] 0) ["[x]"] initial = Ok st
    /\ step Decimal.read [] [] 0 st "[pause:1]" = Ok st'
    /\ segments st' = []
    /\ List.map pause_before (attribute_stack st) = [0%float; 0%float]
    /\ List.map pause_before (attribute_stack st') = [1%float; 0%float]
    /\ pause_before (root_scope st')
       <> (pause_before (root_scope st) + 1)%float
    /\ parse_markup Decimal.read [] [] 0 "[x][pause:1][/]a"
       = Ok [mkSegment "a" 0 0 1 1 1 false None 0 0 0].
Proof.
  eexists. eexists.
  split; [vm_compute; reflexivity|].
  split; [vm_compute; reflexivity|].
  split; [reflexivity|]. split; [reflexivity|]. split; [reflexivity|].
  split; [|vm_compute; reflexivity].
  intros H. apply (f_equal (fun x => PrimFloat.eqb x 0)) in H.
  vm_compute in H. discriminate.
Qed.

Lemma pause_token_effect_witness :
  _flush_text_buffer 0 spoken_a = Ok spoken_a
  /\ step Decimal.read [] [] 0 spoken_a "[pause:1.5]"
     = Ok (mkState [mkSegment "a" 0 1.5 1 1 1 false None 0 0 0]
             [mkAttrs 1 1 1 0 0 (PyBool false)] [] true)
  /\ step Decimal.read [] [] 0 spoken_a "[pause:soon]" = Ok spoken_a.
Proof.
  split; [reflexivity|].
  destruct (pause_token_effect Decimal.read [] [] 0 spoken_a spoken_a "1.5"
              eq_refl) as [_ Hsome].
  destruct (pause_token_effect Decimal.read [] [] 0 spoken_a spoken_a "soon"
              eq_refl) as [Hnone _].
  split.
  - exact (proj1 (Hsome 1.5%float eq_refl) [] (segment_default "a" 0) eq_refl).
  - exact (Hnone eq_refl).
Defined.

(** *** C2 *)

(** C2.  The code loses the pause that precedes spelled text.  In
    ["[spell][pause:1]A"] the pause accumulates on the spelling scope; the
    flush of ["A"] from that scope builds its segment with a
    [pause_before] of 0 and then resets the scope, so the pause of one
    second reaches no segment.  The plain branch of the same flush hands
    the [pause_before] of the scope to its segment, and the reset is
    commented as following the consumption of the pause. *)
Lemma spelled_flush_drops_pause_before :
  exists st st' top below,
    for_each (step Decimal.read [] [] 0.5) ["[spell]"; "[pause:1]"; "A"]
             initial = Ok st
    /\ attribute_stack st = top :: below
    /\ pause_before top = 1%float
    /\ truthy (spell top) = true
    /\ current_text_buffer st = ["A"]
    /\ _flush_text_buffer 0.5 st = Ok st'
    /\ List.map (fun s => (text s, seg_pause_before s)) (segments st')
       = [("AAY", 0%float)]
    /\ List.map pause_before (attribute_stack st') = [0%float; 0%float]
    /\ parse_markup Decimal.read [] [] 0.5 "[spell][pause:1]A"
       = Ok [mkSegment "AAY" 0 0 1 1 1 false None 0 0 0].
Proof.
  do 4 eexists.
  split; [vm_compute; reflexivity|].
  split; [reflexivity|].
  repeat (split; [vm_compute; reflexivity|]).
  vm_compute; reflexivity.
Qed.

(** Without [[spell]] the same pause reaches the segment. *)
Example plain_flush_keeps_pause_before :
  parse_markup Decimal.read [] [] 0.5 "[x][pause:1]A"
  = Ok [mkSegment "A" 1 0 1 1 1 false None 0 0 0].
Proof. vm_compute. reflexivity. Qed.

(** A punctuation merge resets the scope as well, and emits nothing: the
    [pause_before] of 2 set by the tag is gone when ["b"] is flushed from
    the same scope. *)
Example merge_resets_pause_before :
  parse_markup Decimal.read [] [] 0 "a[pause_before:2]![pause:1]b"
  = Ok [mkSegment "a!" 0 1 1 1 1 false None 0 0 0;
        mkSegment "b" 0 0 1 1 1 false None 0 0 0].
Proof. vm_compute. reflexivity. Qed.

Lemma flush_consumes_pause_before_witness :
  let top := set_float _get_default_attrs PauseBefore 2 in
  let st := mkState [] [top] ["Hello"; "world"] false in
  exists added top',
    _flush_text_buffer 0.5 st = Ok (mkState ([] ++ added) [top'] [] true)
    /\ pause_before top' = 0%float
    /\ added = [mkSegment "Hello world" 2 0 1 1 1 false None 0 0 0].
Proof.
  intros top st.
  destruct (flush_consumes_pause_before 0.5 st top [] eq_refl
              ltac:(discriminate) ltac:(discriminate) eq_refl)
    as (added & top' & H1 & H2 & H3 & _).
  exists added, top'. split; [exact H1|]. split; [exact H2|].
  exact (H3 eq_refl).
Defined.

(** *** C3 *)

(** C3 does not hold as stated.  The close tag of ["a[/]b"] is met at root
    and flushes ["a"]: two segments come out, where ["ab"] gives one. *)
Lemma unmatched_close_splits_text :
  Tokenizer.findall "a[/]b" = ["a"; "[/]"; "b"]
  /\ parse_markup Decimal.read [] [] 0 "a[/]b"
     = Ok [mkSegment "a" 0 0 1 1 1 false None 0 0 0;
           mkSegment "b" 0 0 1 1 1 false None 0 0 0]
  /\ parse_markup Decimal.read [] [] 0 "ab"
     = Ok [mkSegment "ab" 0 0 1 1 1 false None 0 0 0]
  /\ parse_markup Decimal.read [] [] 0 "a[/]b"
     <> parse_markup Decimal.read [] [] 0 "ab".
Proof.
  split; [vm_compute; reflexivity|].
  split; [vm_compute; reflexivity|].
  split; [vm_compute; reflexivity|].
  vm_compute. discriminate.
Qed.

Lemma unmatched_close_only_flushes_witness :
  for_each (step Decimal.read [] [] 0) ["[pause:1]"] initial
  = Ok (mkState [] [mkAttrs 1 1 1 1 0 (PyBool false)] [] false)
  /\ run Decimal.read [] [] 0 (["[pause:1]"] ++ "[/]" :: ["b"])
     = run Decimal.read [] [] 0 (["[pause:1]"] ++ ["b"]).
Proof.
  split; [vm_compute; reflexivity|].
  destruct (unmatched_close_only_flushes Decimal.read [] [] 0 ["[pause:1]"]
              (mkState [] [set_float _get_default_attrs PauseBefore 1] []
                       false)
              (set_float _get_default_attrs PauseBefore 1))
    as (_ & _ & H); [vm_compute; reflexivity|reflexivity|].
  exact (proj2 (H eq_refl ["b"])).
Defined.

(** *** C4 *)



(** *** C5 *)

Lemma spelled_flush_of_alnum_run_witness :
  let scope := mkAttrs 1.5 1 0.5 2 0 (PyBool true) in
  let st := mkState [] [scope] ["aI9"] false in
  _flush_text_buffer 0.5 st
  = Ok (mkState
          [mkSegment "AAY" 0 0 1.5 1 0.5 false None 0 0 0;
           mkSegment "" 0.5 0 1.5 1 0.5 false None 0 0 0;
           mkSegment "Eye" 0 0 1.5 1 0.5 false None 0 0 0;
           mkSegment "" 0.5 0 1.5 1 0.5 false None 0 0 0;
           mkSegment "nine" 0 0 1.5 1 0.5 false None 0 0 0]
          [mkAttrs 1.5 1 0.5 0 0 (PyBool true)] [] true)
  /\ exists added,
      _flush_text_buffer 0.5 st
      = Ok (mkState ([] ++ added) [mkAttrs 1.5 1 0.5 0 0 (PyBool true)] []
              true)
      /\ List.length added = 5
      /\ nth_error added 0
         = Some (mkSegment "AAY" 0 0 1.5 1 0.5 false None 0 0 0)
      /\ nth_error added 1
         = Some (mkSegment "" 0.5 0 1.5 1 0.5 false None 0 0 0)
      /\ nth_error added 4
         = Some (mkSegment "nine" 0 0 1.5 1 0.5 false None 0 0 0).
Proof.
  intros scope st. split; [vm_compute; reflexivity|].
  destruct (spelled_flush_of_alnum_run 0.5 st scope [] "aI9" eq_refl
              eq_refl ltac:(discriminate) eq_refl eq_refl)
    as (added & H1 & H2 & H3 & H4).
  exists added. split; [exact H1|]. split; [exact H2|].
  split; [|split].
  - destruct (H3 0 "a"%char eq_refl) as (phonetic & Hs & Hn).
    inversion Hs; subst. exact Hn.
  - apply (H4 0). simpl. lia.
  - destruct (H3 2 "9"%char eq_refl) as (phonetic & Hs & Hn).
    inversion Hs; subst. exact Hn.
Defined.

(** *** C6 *)

(** C6 does not hold as stated.  A preset that lists a name that is no key
    of the attribute dictionary makes [attrs[key] *= value] raise
    [KeyError], and [parse_markup] raises it in its turn. *)
Lemma unknown_preset_key :
  parse_markup Decimal.read [("fast", [("speed", MFloat 2)])] [] 0 "[fast]a"
  = Raise (KeyError "speed").
Proof. vm_compute. reflexivity. Qed.

Lemma parse_markup_total_witness :
  let emotion :=
    [("happy", [("rate", MInt 2); ("pitch", MFloat 1.5)]);
     ("shy", [("spell", MFloat 0); ("volume", MFloat 0.5)])] in
  presets_ok emotion = true /\ presets_ok calm = true
  /\ exists segs,
       parse_markup Decimal.read emotion calm 0.5
                    "[happy,soft]Hi [/][/] ] [pause:x][ [spell,shy]ok" = Ok segs
       /\ segs <> [].
Proof.
  intros emotion.
  split; [vm_compute; reflexivity|]. split; [vm_compute; reflexivity|].
  exact (parse_markup_total Decimal.read emotion calm 0.5
           ltac:(vm_compute; reflexivity) ltac:(vm_compute; reflexivity) _).
Defined.

(** *** C7 *)

(** C7 does not hold as stated.  ["a]b"] holds no tag, yet the bracket is
    matched by no alternative of the pattern and is dropped between two
    text runs: the segment reads ["a b"], the normalized input ["a]b"]. *)
Lemma stray_bracket_is_dropped :
  Tokenizer.findall "a]b" = ["a"; "b"]
  /\ List.existsb is_tag (Tokenizer.findall "a]b") = false
  /\ parse_markup Decimal.read [] [] 0 "a]b"
     = Ok [mkSegment "a b" 0 0 1 1 1 false None 0 0 0]
  /\ whitespace_normalized "a]b" = "a]b"
  /\ Str.strip (Str.collapse "a]b") = "a]b"
  /\ parse_markup Decimal.read [] [] 0 "a]b"
     <> Ok [mkSegment (whitespace_normalized "a]b") 0 0 1 1 1 false None
              0 0 0].
Proof.
  repeat (split; [vm_compute; reflexivity|]).
  vm_compute. discriminate.
Qed.

Lemma bracket_free_text_one_segment_witness :
  no_bracket "  Hello,   world! " = true
  /\ parse_markup Decimal.read lively calm 0.5 "  Hello,   world! "
     = Ok [mkSegment "Hello, world!" 0 0 1 1 1 false None 0 0 0].
Proof.
  split; [reflexivity|].
  exact (bracket_free_text_one_segment Decimal.read lively calm 0.5
           "  Hello,   world! " eq_refl).
Defined.

(** *** C8 *)



(** *** C9 *)

Lemma emotion_table_first_witness :
  Str.contains ":" (Str.lower (Str.strip " Happy ")) = false
  /\ Str.lower (Str.strip " Happy ") <> "spell"
  /\ lookup "happy" lively = Some [("rate", MFloat 1.25); ("pitch", MFloat 1.5)]
  /\ lookup "happy" calm = Some [("volume", MFloat 0.5)]
  /\ apply_attribute Decimal.read lively calm (_get_default_attrs, [])
       " Happy "
     = Ok (mkAttrs 1.25 1.5 1 0 0 (PyBool false), [Pitch; Rate])
  /\ apply_attribute Decimal.read calm lively (_get_default_attrs, [])
       " Happy "
     = Ok (mkAttrs 1 1 0.5 0 0 (PyBool false), [Volume]).
Proof.
  split; [reflexivity|]. split; [discriminate|].
  split; [reflexivity|]. split; [reflexivity|].
  split.
  - exact (proj1 (emotion_table_first Decimal.read lively calm
                    (_get_default_attrs, []) " Happy " eq_refl
                    ltac:(discriminate))
             _ eq_refl).
  - exact (proj1 (emotion_table_first Decimal.read calm lively
                    (_get_default_attrs, []) " Happy " eq_refl
                    ltac:(discriminate))
             _ eq_refl).
Defined.

(** *** C10 *)


Example pauses_add_up :
  parse_markup Decimal.read [] [] 0 "a[pause:1][pause:0.5]b[pause:2]"
  = Ok [mkSegment "a" 0 1.5 1 1 1 false None 0 0 0;
        mkSegment "b" 0 2 1 1 1 false None 0 0 0].
Proof. vm_compute. reflexivity. Qed.

Example negative_pause_shortens :
  parse_markup Decimal.read [] [] 0 "a[pause:-1]"
  = Ok [mkSegment "a" 0 (-1) 1 1 1 false None 0 0 0].
Proof. vm_compute. reflexivity. Qed.

(** * Further properties of the code

    The tokenizer, the attribute resolver, the flush, the spelling helper
    and the subtitle generator, beyond what the claims above state. *)

(** ** Notions used by the further statements *)


(** A token of the shape [[inner]], [inner] not empty and free of [']']. *)
Definition tag_shaped (token : string) : Prop :=
  exists inner,
    token = String "[" (inner ++ "]")
    /\ inner <> EmptyString /\ Str.contains "]" inner = false.

(** A text run: not empty, no bracket. *)
Definition text_shaped (token : string) : Prop :=
  token <> EmptyString /\ no_bracket token = true.

(** ** The tokens of a text *)

Module Tokens.

Import Str StrFacts Tokenizer TokenizerFacts.
Local Open Scope nat_scope.

Lemma not_close_contains s :
  Str.forallb not_close s = true -> contains "]" s = false.
Proof.
  induction s as [|c s IH]; [reflexivity|]. simpl. intros H.
  apply andb_true_iff in H as [Hc Hs]. unfold not_close in Hc.
  apply negb_true_iff in Hc. rewrite Hc, (IH Hs). reflexivity.
Qed.

Lemma contains_not_close s :
  contains "]" s = false -> Str.forallb not_close s = true.
Proof.
  induction s as [|c s IH]; [reflexivity|]. simpl. intros H.
  apply orb_false_iff in H as [Hc Hs]. unfold not_close at 1.
  rewrite Hc, (IH Hs). reflexivity.
Qed.

Lemma tag_shaped_is_tag token : tag_shaped token -> is_tag token = true.
Proof.
  intros (inner & -> & _ & _). unfold is_tag.
  change (String "[" (inner ++ "]")) with (("[" ++ inner) ++ "]")%string.
  rewrite endswith_bracket. reflexivity.
Qed.

Lemma text_shaped_not_tag token : text_shaped token -> is_tag token = false.
Proof.
  intros [Hne Hnb]. unfold is_tag. destruct token as [|c t]; [congruence|].
  unfold no_bracket in Hnb. cbn [Str.forallb] in Hnb.
  apply andb_true_iff in Hnb as [Hc _]. apply negb_true_iff in Hc.
  unfold Char.is_bracket in Hc. apply orb_false_iff in Hc as [Hc _].
  cbn [startswith]. rewrite Ascii.eqb_sym, Hc. reflexivity.
Qed.

Lemma match_tag_cases s token rest :
  match_tag s = Some (token, rest) ->
  s = (token ++ rest)%string /\ tag_shaped token.
Proof.
  unfold match_tag.
  destruct (after_prefix "[" s) as [s'|] eqn:Ha; [|discriminate].
  apply after_prefix_append in Ha. subst s.
  destruct (run_then_close not_close s') as [[i r]|] eqn:Hr; [|discriminate].
  intros H; inversion H; subst.
  apply run_then_close_append in Hr as (-> & Hne & Hi).
  split.
  - simpl. rewrite append_assoc. reflexivity.
  - exists i. split; [reflexivity|]. split; [exact Hne|].
    apply not_close_contains. exact Hi.
Qed.

(** What a match takes off the text is a tag or a text run. *)
Lemma match_token_cases s token rest :
  match_token s = Some (token, rest) ->
  s = (token ++ rest)%string /\ (tag_shaped token \/ text_shaped token).
Proof.
  unfold match_token, or_else.
  destruct (match_pause s) as [r|] eqn:Hp.
  { apply match_pause_tag in Hp. intros H; rewrite H in Hp.
    destruct (match_tag_cases _ _ _ Hp) as [E Ht]. split; [exact E|].
    left; exact Ht. }
  destruct (match_tag s) as [r|] eqn:Ht.
  { intros H; rewrite H in Ht.
    destruct (match_tag_cases _ _ _ Ht) as [E Hs]. split; [exact E|].
    left; exact Hs. }
  destruct (match_close s) as [r|] eqn:Hc.
  { intros H; rewrite H in Hc. unfold match_close in Hc.
    destruct (after_prefix "[/]" s) as [s'|] eqn:Ha; [|discriminate].
    apply after_prefix_append in Ha. inversion Hc; subst.
    split; [reflexivity|]. left. exists "/". repeat split. discriminate. }
  unfold match_text. destruct (span not_bracket s) as [[|c t] r] eqn:Hs;
    [discriminate|].
  intros H; inversion H; subst.
  split; [exact (span_append _ _ _ _ Hs)|].
  right. split; [discriminate|]. exact (span_forallb _ _ _ _ Hs).
Qed.




(** X1.  Every token that [findall] returns is either a tag, of the shape
    [[inner]] with [inner] not empty and free of [']'], which the token
    loop takes for a tag, or a run of text, not empty and free of brackets,
    which the loop takes for plain text. *)
Theorem findall_token_shapes s :
  Forall (fun token => (tag_shaped token /\ is_tag token = true)
                       \/ (text_shaped token /\ is_tag token = false))
         (findall s).
Proof.
  unfold findall. generalize (String.length s) as n. intros n. revert s.
  induction n as [|n IH]; intros s; [constructor|].
  destruct s as [|c s]; [constructor|]. cbn [scan].
  destruct (match_token (String c s)) as [[token rest]|] eqn:E; [|apply IH].
  constructor; [|apply IH].
  destruct (match_token_cases _ _ _ E) as [_ [Ht|Ht]].
  - left. split; [exact Ht|exact (tag_shaped_is_tag _ Ht)].
  - right. split; [exact Ht|exact (text_shaped_not_tag _ Ht)].
Qed.


(** A tag at the start of the text is its first token, and the rest is
    scanned as it would be alone. *)
Lemma findall_tag_first inner rest :
  inner <> EmptyString -> contains "]" inner = false ->
  findall (String "[" (inner ++ String "]" rest))
  = String "[" (inner ++ "]") :: findall rest.
Proof.
  intros Hne Hc.
  assert (Hm : match_token (String "[" (inner ++ String "]" rest))
               = Some (String "[" (inner ++ "]"), rest)).
  { apply match_token_tag. unfold match_tag.
    change (after_prefix "[" (String "[" (inner ++ String "]" rest)))
      with (Some (inner ++ String "]" rest)%string).
    cbv beta iota.
    rewrite run_then_close_stop;
      [reflexivity|exact Hne|exact (contains_not_close _ Hc)|reflexivity]. }
  unfold findall at 1. cbn [String.length scan]. rewrite Hm. f_equal.
  symmetry. apply findall_scan.
  rewrite length_append. simpl. lia.
Qed.

End Tokens.

(** ** The attribute resolver *)

Module CaseFacts.

Import Str StrFacts.

Lemma lower_space c : Char.is_space (Char.lower c) = Char.is_space c.
Proof. destruct c as [[] [] [] [] [] [] [] []]; vm_compute; reflexivity. Qed.

Lemma lower_lower c : Char.lower (Char.lower c) = Char.lower c.
Proof. destruct c as [[] [] [] [] [] [] [] []]; vm_compute; reflexivity. Qed.

Lemma lower_comma c : Ascii.eqb (Char.lower c) "," = Ascii.eqb c ",".
Proof. destruct c as [[] [] [] [] [] [] [] []]; vm_compute; reflexivity. Qed.

Lemma is_empty_map f s : is_empty (map f s) = is_empty s.
Proof. destruct s; reflexivity. Qed.

Lemma lstrip_lower s : lstrip (lower s) = lower (lstrip s).
Proof.
  induction s as [|c s IH]; [reflexivity|]. unfold lower in *. simpl.
  rewrite lower_space. destruct (Char.is_space c); [exact IH|reflexivity].
Qed.

Lemma rstrip_lower s : rstrip (lower s) = lower (rstrip s).
Proof.
  induction s as [|c s IH]; [reflexivity|]. unfold lower in *. simpl.
  rewrite lower_space, IH, is_empty_map.
  destruct (Char.is_space c && is_empty (rstrip s)); reflexivity.
Qed.

Lemma strip_lower s : strip (lower s) = lower (strip s).
Proof. unfold strip. rewrite lstrip_lower, rstrip_lower. reflexivity. Qed.

Lemma lower_idempotent s : lower (lower s) = lower s.
Proof.
  induction s as [|c s IH]; [reflexivity|]. unfold lower in *. simpl.
  rewrite lower_lower, IH. reflexivity.
Qed.

Lemma strip_idempotent s : strip (strip s) = strip s.
Proof.
  destruct (strip s) as [|c r] eqn:E; [reflexivity|]. rewrite <- E.
  apply trimmed_strip. apply strip_trimmed. rewrite E. discriminate.
Qed.

Lemma split_lower s :
  split "," (lower s) = List.map lower (split "," s).
Proof.
  induction s as [|c s IH]; [reflexivity|]. unfold lower in *.
  cbn [map split]. rewrite lower_comma, IH.
  destruct (Ascii.eqb c ","); [reflexivity|].
  destruct (split "," s); reflexivity.
Qed.

End CaseFacts.

Lemma for_each_map {A B S : Type} (body : S -> B -> result S) (f : A -> B) l :
  forall s, for_each body (List.map f l) s
            = for_each (fun s x => body s (f x)) l s.
Proof.
  induction l as [|x l IH]; intros s; [reflexivity|]. simpl.
  destruct (body s (f x)); simpl; [apply IH|reflexivity].
Qed.

Lemma for_each_ext {A S : Type} (body body' : S -> A -> result S) l :
  (forall s x, body s x = body' s x) ->
  forall s, for_each body l s = for_each body' l s.
Proof.
  intros H. induction l as [|x l IH]; intros s; [reflexivity|]. simpl.
  rewrite H. destruct (body' s x); simpl; [apply IH|reflexivity].
Qed.

Lemma lookup_skip name entry before after :
  fst entry <> name ->
  lookup name (before ++ entry :: after) = lookup name (before ++ after).
Proof.
  intros Hne. induction before as [|[n p] before IH]; simpl.
  - destruct entry as [n p]. simpl in Hne.
    apply String.eqb_neq in Hne. rewrite Hne. reflexivity.
  - rewrite IH. reflexivity.
Qed.

Section Resolver.

Variable py_float : string -> option float.
Variable emotion_presets : PresetTable.
Variable modifier_presets : PresetTable.

Local Notation "'apply_'" :=
  (apply_attribute py_float emotion_presets modifier_presets).
Local Notation "'resolve'" :=
  (_apply_attributes py_float emotion_presets modifier_presets).

(** X3.  The attributes of a tag are read without regard to letter case
    and to the white space around each of them: the attribute text in
    lower case resolves as the text itself does, and so does a token
    without the white space at its ends. *)
Theorem attributes_ignore_case_and_space current_attrs spec :
  resolve current_attrs (Str.lower spec) = resolve current_attrs spec
  /\ forall acc raw, apply_ acc (Str.strip raw) = apply_ acc raw.
Proof.
  split.
  - unfold _apply_attributes.
    rewrite CaseFacts.split_lower, for_each_map.
    apply for_each_ext. intros acc raw. unfold apply_attribute.
    rewrite CaseFacts.strip_lower, CaseFacts.lower_idempotent. reflexivity.
  - intros acc raw. unfold apply_attribute.
    rewrite CaseFacts.strip_idempotent. reflexivity.
Qed.

End Resolver.

(** A name that no attribute token can spell: it has a capital letter or
    white space at an end, holds a colon, or is [spell]. *)
Definition unreachable_name (name : string) : Prop :=
  Str.lower name <> name \/ Str.strip name <> name
  \/ Str.contains ":" name = true \/ name = "spell".

Section DeadPresets.

Variable py_float : string -> option float.

(** X4.  A preset whose name has a capital letter, has white space at an
    end, holds a colon or is [spell] is never applied: with or without it,
    in the emotion table or in the modifier table, every attribute token
    resolves the same. *)
Theorem unreachable_preset_is_dead name preset :
  unreachable_name name ->
  forall before after table acc raw,
    apply_attribute py_float (before ++ (name, preset) :: after) table acc raw
    = apply_attribute py_float (before ++ after) table acc raw
    /\ apply_attribute py_float table (before ++ (name, preset) :: after)
         acc raw
       = apply_attribute py_float table (before ++ after) acc raw.
Proof.
  intros Hname before after table acc raw.
  unfold apply_attribute.
  set (attr := Str.lower (Str.strip raw)).
  destruct (Str.contains ":" attr) eqn:Hc; [split; reflexivity|].
  destruct (attr =? "spell")%string eqn:Hs; [split; reflexivity|].
  assert (Hne : fst (name, preset) <> attr).
  { simpl. intros ->. destruct Hname as [H|[H|[H|H]]].
    - apply H. unfold attr. apply CaseFacts.lower_idempotent.
    - apply H. unfold attr.
      rewrite <- CaseFacts.strip_lower, CaseFacts.strip_idempotent.
      reflexivity.
    - congruence.
    - rewrite H in Hs. discriminate. }
  rewrite !(lookup_skip attr (name, preset) before after Hne).
  split; reflexivity.
Qed.

End DeadPresets.

Lemma unreachable_preset_is_dead_witness :
  unreachable_name "Happy"
  /\ apply_attribute Decimal.read [("Happy", [("rate", MFloat 2)])] []
       (_get_default_attrs, []) "Happy"
     = apply_attribute Decimal.read [] [] (_get_default_attrs, []) "Happy".
Proof.
  assert (H : unreachable_name "Happy") by (left; discriminate).
  split; [exact H|].
  exact (proj1 (unreachable_preset_is_dead Decimal.read "Happy"
                  [("rate", MFloat 2)] H [] [] [] (_get_default_attrs, [])
                  "Happy")).
Defined.

(** *** Presets *)

(** The name under which the attribute dictionary holds a key. *)
Definition key_name (k : key) : string :=
  match k with
  | Rate => "rate"
  | Pitch => "pitch"
  | Volume => "volume"
  | PauseBefore => "pause_before"
  | PauseAfter => "pause_after"
  | Spell => "spell"
  end.

Lemma key_of_string_name name k :
  key_of_string name = Some k -> name = key_name k.
Proof.
  unfold key_of_string.
  repeat match goal with
         | |- context [(?a =? ?b)%string] =>
             destruct (String.eqb_spec a b);
             [intros H; inversion H; subst; reflexivity|]
         end.
  discriminate.
Qed.

Lemma get_set_same a k f : get (set_float a k f) k = PyFloat f.
Proof. destruct k; reflexivity. Qed.

Lemma get_set_other a k k' f :
  k <> k' -> get (set_float a k f) k' = get a k'.
Proof. destruct k, k'; try reflexivity; congruence. Qed.

Lemma get_set_value_other a k k' v :
  k <> k' -> get (set_value a k v) k' = get a k'.
Proof. destruct k, k'; try reflexivity; congruence. Qed.

(** What is stored is what the multiplication gave. *)
Lemma get_set_value_product a k m v :
  multiply (get a k) m = Ok v -> get (set_value a k v) k = v.
Proof.
  destruct k; try reflexivity;
    (destruct m as [b|n|]; cbn [get multiply as_float];
     [|destruct (float_of_int n)|]; intros H; inversion H; reflexivity).
Qed.

(** A product by a float is the float product of the value as a float. *)
Lemma multiply_by_float v b w :
  multiply v (MFloat b) = Ok w -> w = PyFloat (as_float v * b)%float.
Proof.
  destruct v as [c|n|a]; cbn [multiply as_float].
  - intros H. inversion H. reflexivity.
  - destruct (float_of_int n); intros H; inversion H. reflexivity.
  - intros H. inversion H. reflexivity.
Qed.

Lemma apply_preset_items p : forall acc acc',
  NoDup (List.map fst p) ->
  apply_preset p acc = Ok acc' ->
  (forall k,
     (forall name m, In (name, m) p -> key_of_string name <> Some k) ->
     get (fst acc') k = get (fst acc) k)
  /\ (forall name m k,
        In (name, m) p -> key_of_string name = Some k ->
        multiply (get (fst acc) k) m = Ok (get (fst acc') k)).
Proof.
  induction p as [|[name0 m0] p IH]; intros acc acc' Hnd Happ.
  - simpl in Happ. inversion Happ; subst. split; [reflexivity|].
    intros name m k [].
  - simpl in Happ, Hnd. inversion Hnd as [|? ? Hnotin Hnd']; subst.
    destruct (key_of_string name0) as [k0|] eqn:Hk0; [|discriminate].
    destruct (multiply (get (fst acc) k0) m0) as [w|e] eqn:Hw;
      cbn [bind] in Happ; [|discriminate].
    destruct (IH _ _ Hnd' Happ) as [Hframe Hscale]. simpl fst in *.
    assert (Hfree : forall name m, In (name, m) p ->
                                   key_of_string name <> Some k0).
    { intros name m Hin Hk. apply Hnotin.
      apply key_of_string_name in Hk0. apply key_of_string_name in Hk.
      subst. apply (in_map fst) in Hin. exact Hin. }
    split.
    + intros k Hk. rewrite Hframe.
      * apply get_set_value_other. intros ->.
        apply (Hk name0 m0); [left; reflexivity|exact Hk0].
      * intros name m Hin. apply (Hk name m). right; exact Hin.
    + intros name m k [Hin|Hin] Hk.
      * inversion Hin; subst. rewrite Hk0 in Hk. inversion Hk; subst.
        rewrite (Hframe k Hfree).
        rewrite (get_set_value_product _ _ _ _ Hw). exact Hw.
      * pose proof (Hscale name m k Hin Hk) as H.
        rewrite get_set_value_other in H; [exact H|].
        intros ->. exact (Hfree name m Hin Hk).
Qed.

(** X5.  A preset that is applied without error multiplies each attribute
    it lists by the multiplier listed for it, once, and leaves every other
    attribute as it was.  The product is the one of Python: by a float, the
    float product of the value as a float; by an integer, the float product
    for an attribute that holds a float, and the integer product for a
    [spell] that holds a [bool] or an [int]. *)
Theorem preset_scales_listed_keys p : forall acc acc',
  NoDup (List.map fst p) ->
  apply_preset p acc = Ok acc' ->
  (forall k,
     (forall name v, In (name, v) p -> key_of_string name <> Some k) ->
     get (fst acc') k = get (fst acc) k)
  /\ (forall name v k,
        In (name, MFloat v) p -> key_of_string name = Some k ->
        get (fst acc') k = PyFloat (as_float (get (fst acc) k) * v)%float)
  /\ (forall name m k,
        In (name, m) p -> key_of_string name = Some k ->
        multiply (get (fst acc) k) m = Ok (get (fst acc') k)).
Proof.
  intros acc acc' Hnd Happ.
  destruct (apply_preset_items p acc acc' Hnd Happ) as [Hframe Hscale].
  split; [exact Hframe|]. split; [|exact Hscale].
  intros name v k Hin Hk.
  exact (multiply_by_float _ _ _ (Hscale name (MFloat v) k Hin Hk)).
Qed.

Lemma preset_scales_listed_keys_witness :
  NoDup (List.map fst [("rate", MFloat 1.25); ("pitch", MFloat 1.5)])
  /\ apply_preset [("rate", MFloat 1.25); ("pitch", MFloat 1.5)]
       (set_float _get_default_attrs Rate 2, [])
     = Ok (mkAttrs 2.5 1.5 1 0 0 (PyBool false), [Pitch; Rate])
  /\ get (mkAttrs 2.5 1.5 1 0 0 (PyBool false)) Rate
     = PyFloat (2 * 1.25)%float.
Proof.
  assert (Hnd : NoDup (List.map fst [("rate", MFloat 1.25); ("pitch", MFloat 1.5)])).
  { repeat constructor; simpl; intuition discriminate. }
  split; [exact Hnd|]. split; [reflexivity|].
  exact (proj1 (proj2 (preset_scales_listed_keys
                         [("rate", MFloat 1.25); ("pitch", MFloat 1.5)]
                         (set_float _get_default_attrs Rate 2, []) _ Hnd
                         eq_refl))
           "rate" 1.25%float Rate (or_introl eq_refl) eq_refl).
Defined.

(** *** Comma lists and nesting *)

(** Two outcomes of the resolver that raise the same exception or give the
    same dictionary. *)
Definition same_attrs (r1 r2 : result (Attrs * list key)) : Prop :=
  match r1, r2 with
  | Ok a, Ok b => fst a = fst b
  | Raise e1, Raise e2 => e1 = e2
  | _, _ => False
  end.

Lemma split_never_nil sep s : Str.split sep s <> [].
Proof.
  destruct s as [|c s]; simpl; [discriminate|].
  destruct (Ascii.eqb c sep); [discriminate|].
  destruct (Str.split sep s); discriminate.
Qed.

Lemma split_append sep a b :
  Str.split sep (a ++ String sep b) = Str.split sep a ++ Str.split sep b.
Proof.
  induction a as [|c a IH]; simpl.
  - rewrite Ascii.eqb_refl. reflexivity.
  - rewrite IH. destruct (Ascii.eqb c sep); [reflexivity|].
    pose proof (split_never_nil sep a) as Hne.
    destruct (Str.split sep a); [congruence|reflexivity].
Qed.

Section CommaLists.

Variable py_float : string -> option float.
Variable emotion_presets : PresetTable.
Variable modifier_presets : PresetTable.

Local Notation "'apply_'" :=
  (apply_attribute py_float emotion_presets modifier_presets).
Local Notation "'resolve'" :=
  (_apply_attributes py_float emotion_presets modifier_presets).

Lemma apply_preset_same p : forall acc1 acc2,
  fst acc1 = fst acc2 ->
  same_attrs (apply_preset p acc1) (apply_preset p acc2).
Proof.
  induction p as [|[name v] p IH]; intros acc1 acc2 H; simpl; [exact H|].
  destruct (key_of_string name) as [k|]; [|reflexivity].
  rewrite H. destruct (multiply (get (fst acc2) k) v) as [w|e];
    cbn [bind]; [|reflexivity].
  apply IH. reflexivity.
Qed.

Lemma apply_attribute_same acc1 acc2 raw :
  fst acc1 = fst acc2 -> same_attrs (apply_ acc1 raw) (apply_ acc2 raw).
Proof.
  intros H. unfold apply_attribute.
  destruct (Str.contains ":" _).
  - destruct (Str.split_once ":" _) as [k v].
    destruct (Str.strip k =? "spell")%string; [simpl; rewrite H; reflexivity|].
    destruct (key_of_string _); [|exact H].
    destruct (py_float _); [simpl; rewrite H; reflexivity|exact H].
  - destruct (_ =? "spell")%string; [simpl; rewrite H; reflexivity|].
    destruct (lookup _ emotion_presets); [apply apply_preset_same; exact H|].
    destruct (lookup _ modifier_presets); [apply apply_preset_same; exact H|].
    exact H.
Qed.

Lemma for_each_same l : forall acc1 acc2,
  fst acc1 = fst acc2 ->
  same_attrs (for_each apply_ l acc1) (for_each apply_ l acc2).
Proof.
  induction l as [|raw l IH]; intros acc1 acc2 H; simpl; [exact H|].
  pose proof (apply_attribute_same acc1 acc2 raw H) as Hs.
  destruct (apply_ acc1 raw) as [a1|e1], (apply_ acc2 raw) as [a2|e2];
    simpl in *; try contradiction; [apply IH; exact Hs|exact Hs].
Qed.

(** X6.  The attributes of a tag are resolved from left to right, and a
    comma does what nesting does: [[a,b]] opens the scope that [[b]] opens
    inside [[a]], and raises what the two tags raise. *)
Theorem comma_list_as_nested_tags current_attrs a b :
  same_attrs (resolve current_attrs (a ++ String "," b))
             (inner <- resolve current_attrs a ;; resolve (fst inner) b).
Proof.
  unfold _apply_attributes. rewrite split_append, for_each_app.
  destruct (for_each apply_ (Str.split "," a) (current_attrs, []))
    as [acc|e]; cbn [bind]; [|reflexivity].
  apply for_each_same. reflexivity.
Qed.

End CommaLists.

(** ** The token loop, one turn at a time *)

(** What a turn of the loop does to the state once its flush, if any, is
    done: nothing, a pop, a pause added to the last segment or to the
    active scope, a push, or a text run added to the buffer. *)
Inductive move (st : State) : State -> Prop :=
| move_none : move st st
| move_pop a b below :
    attribute_stack st = a :: b :: below ->
    move st (mkState (segments st) (b :: below) (current_text_buffer st)
                     (text_segment_created st))
| move_pause_last d :
    segments st <> [] ->
    move st (mkState (update_last (add_pause_after d) (segments st))
                     (attribute_stack st) (current_text_buffer st)
                     (text_segment_created st))
| move_pause_scope d top below :
    segments st = [] ->
    attribute_stack st = top :: below ->
    move st (mkState (segments st)
                     (set_float top PauseBefore (pause_before top + d)%float
                        :: below)
                     (current_text_buffer st) (text_segment_created st))
| move_push temp :
    attribute_stack st <> [] ->
    move st (mkState (segments st) (temp :: attribute_stack st)
                     (current_text_buffer st) (text_segment_created st))
| move_buffer n :
    trimmed n ->
    move st (mkState (segments st) (attribute_stack st)
                     (current_text_buffer st ++ [n])
                     (text_segment_created st)).

(** What a flush does to the segments. *)
Inductive emitted (d : float) (top : Attrs) (segs : list SpeechSegment)
  : list SpeechSegment -> Prop :=
| emitted_nothing : emitted d top segs segs
| emitted_merge t :
    segs <> [] -> emitted d top segs (update_last (add_text t) segs)
| emitted_spelled t :
    t <> EmptyString ->
    emitted d top segs (segs ++ spelled_segments d t top)
| emitted_plain t :
    t <> EmptyString ->
    emitted d top segs (segs ++ [segment_of t (pause_before top) 0 top]).

Section Turns.

Variable py_float : string -> option float.
Variable emotion_presets : PresetTable.
Variable modifier_presets : PresetTable.
Variable spell_pause_duration : float.

Local Notation "'flush'" := (_flush_text_buffer spell_pause_duration).
Local Notation "'step_'" :=
  (step py_float emotion_presets modifier_presets spell_pause_duration).
Local Notation "'resolve'" :=
  (_apply_attributes py_float emotion_presets modifier_presets).

Lemma emit_cases text_content top st :
  emitted spell_pause_duration top (segments st)
          (fst (emit spell_pause_duration text_content top st)).
Proof.
  unfold emit. destruct (Str.is_empty text_content) eqn:He; [constructor|].
  apply StrFacts.is_empty_false in He.
  destruct (merge_applies text_content (segments st)) eqn:Hm.
  - apply emitted_merge. intros E. rewrite E, merge_applies_nil in Hm.
    discriminate.
  - destruct (truthy (spell top)); simpl;
      [apply emitted_spelled|apply emitted_plain]; exact He.
Qed.

(** A flush returns unless the stack is empty; it empties the buffer, sets
    the [pause_before] of the active scope to 0 when the buffer held text
    and touches no other scope. *)
Lemma flush_cases st :
  attribute_stack st <> [] ->
  exists st',
    flush st = Ok st' /\ current_text_buffer st' = []
    /\ (st' = st
        \/ exists top below,
             attribute_stack st = top :: below
             /\ attribute_stack st' = set_float top PauseBefore 0 :: below
             /\ emitted spell_pause_duration top (segments st)
                        (segments st')).
Proof.
  intros Hs. destruct (current_text_buffer st) as [|x b] eqn:Hb.
  - exists st. rewrite (flush_empty_buffer _ _ Hb).
    split; [reflexivity|]. split; [exact Hb|]. left; reflexivity.
  - destruct (attribute_stack st) as [|top below] eqn:Ha; [congruence|].
    rewrite (flush_buffer _ st top below Ha) by (rewrite Hb; discriminate).
    eexists. split; [reflexivity|]. cbv zeta. split; [reflexivity|].
    right. exists top, below. split; [reflexivity|]. split; [reflexivity|].
    apply emit_cases.
Qed.

(** A turn of the loop from a state with a scope on the stack: it raises
    what the resolver raises on the attributes of an opening tag, or does
    one move, after a flush or without one. *)
Lemma step_cases st token :
  attribute_stack st <> [] ->
  (exists e top below,
     step_ st token = Raise e /\ attribute_stack st = top :: below
     /\ resolve top (Str.slice_to_last 1 token) = Raise e)
  \/ (exists st1 st',
        step_ st token = Ok st' /\ (st1 = st \/ flush st = Ok st1)
        /\ move st1 st').
Proof.
  intros Hs. unfold step.
  destruct (Str.startswith "[" token && Str.endswith "]" token).
  - destruct (token =? "[/]")%string.
    + right. unfold close_tag.
      destruct (flush_cases st Hs) as (st1 & Hf & _ & _). rewrite Hf.
      cbn [bind]. exists st1.
      destruct (attribute_stack st1) as [|a [|b below]] eqn:Ha.
      * exists st1. split; [reflexivity|]. split; [right; reflexivity|constructor].
      * exists st1. split; [reflexivity|]. split; [right; reflexivity|constructor].
      * eexists. split; [reflexivity|]. split; [right; reflexivity|].
        exact (move_pop st1 a b below Ha).
    + destruct (Str.startswith "[pause:" token).
      * right. unfold pause_tag.
        destruct (flush_cases st Hs) as (st1 & Hf & _ & Hst).
        rewrite Hf. cbn [bind]. exists st1.
        destruct (py_float _) as [d|];
          [|exists st1; split; [reflexivity|];
            split; [right; reflexivity|constructor]].
        destruct (segments st1) as [|s segs] eqn:Hseg.
        -- destruct (attribute_stack st1) as [|top below] eqn:Ha.
           { exfalso. destruct Hst as [->|(t & b & _ & E & _)]; congruence. }
           eexists. split; [reflexivity|]. split; [right; reflexivity|].
           rewrite <- Hseg. exact (move_pause_scope st1 d top below Hseg Ha).
        -- eexists. split; [reflexivity|]. split; [right; reflexivity|].
           rewrite <- Hseg. apply move_pause_last. rewrite Hseg. discriminate.
      * unfold open_tag.
        destruct (attribute_stack st) as [|top below] eqn:Ha; [congruence|].
        destruct (resolve top (Str.slice_to_last 1 token)) as [temp|e] eqn:Hr.
        -- right. cbn [bind].
           destruct (negb _ && attrs_differ top temp).
           ++ destruct (flush_cases st) as (st1 & Hf & _ & Hst);
                [rewrite Ha; discriminate|].
              rewrite Hf. cbn [bind]. exists st1. eexists.
              split; [reflexivity|]. split; [right; reflexivity|].
              apply move_push.
              destruct Hst as [->|(t & b & _ & E & _)];
                [rewrite Ha|rewrite E]; discriminate.
           ++ cbn [bind]. exists st. eexists. split; [reflexivity|].
              split; [left; reflexivity|].
              apply move_push. rewrite Ha. discriminate.
        -- left. exists e, top, below. cbn [bind].
           split; [reflexivity|]. split; [reflexivity|exact Hr].
  - right. unfold plain_text. exists st.
    destruct (Str.is_empty (Str.strip token)) eqn:Hblank.
    + exists st. split; [reflexivity|]. split; [left; reflexivity|constructor].
    + eexists. split; [reflexivity|]. split; [left; reflexivity|].
      apply move_buffer. apply StrFacts.strip_trimmed.
      apply StrFacts.normalized_nonempty.
      apply StrFacts.is_empty_false. exact Hblank.
Qed.

End Turns.

(** ** What the loop keeps *)

(** The fields that the parser leaves to the synthesis: the spell flag and
    the voice at their defaults, the times at zero. *)
Definition untimed (s : SpeechSegment) : Prop :=
  seg_spell s = false /\ voice s = None /\ start_time s = 0%float
  /\ end_time s = 0%float /\ duration s = 0%float.

(** Two scopes that differ in [pause_before] at most. *)
Definition same_but_pause_before (a b : Attrs) : Prop :=
  rate a = rate b /\ pitch a = pitch b /\ volume a = volume b
  /\ pause_after a = pause_after b /\ spell a = spell b.

(** What the item [(name, m)] of a preset can raise when it is applied:
    the [KeyError] of a name that is no key of the attribute dictionary,
    the [TypeError] of a multiplier that is no number, the [OverflowError]
    of an integer multiplier that has no float, and the [OverflowError] of
    a float multiplier of [spell], raised when [spell] holds an integer
    that has no float. *)
Definition item_raises (name : string) (m : multiplier) (e : exn) : Prop :=
  match e with
  | KeyError n => n = name /\ key_of_string name = None
  | TypeError => key_of_string name <> None /\ m = MNone
  | OverflowError =>
      key_of_string name <> None
      /\ ((exists n, m = MInt n /\ float_of_int n = None)
          \/ (key_of_string name = Some Spell /\ exists b, m = MFloat b))
  | IndexError => False
  end.

(** The exception is one that an item of a preset of one of the tables
    raises. *)
Definition preset_error (emotion modifier : PresetTable) (e : exn)
  : Prop :=
  exists name m preset_name preset,
    item_raises name m e
    /\ In (name, m) preset
    /\ (In (preset_name, preset) emotion
        \/ In (preset_name, preset) modifier).

Lemma lookup_in name t p : lookup name t = Some p -> In (name, p) t.
Proof.
  induction t as [|[n q] t IH]; simpl; [discriminate|].
  destruct (String.eqb_spec n name) as [->|].
  - intros H; inversion H; subst. left; reflexivity.
  - intros H. right. exact (IH H).
Qed.

Lemma multiply_raises a k m e :
  multiply (get a k) m = Raise e ->
  (e = TypeError /\ m = MNone)
  \/ (e = OverflowError
      /\ ((exists n, m = MInt n /\ float_of_int n = None)
          \/ (k = Spell /\ exists b, m = MFloat b))).
Proof.
  destruct m as [b|n|]; cbn [multiply].
  - destruct k; cbn [get]; try discriminate.
    destruct (spell a) as [c|z|x]; try discriminate.
    destruct (float_of_int z); [discriminate|].
    intros H. inversion H. right. split; [reflexivity|].
    right. split; [reflexivity|]. exists b. reflexivity.
  - destruct (get a k) as [c|z|x]; try discriminate.
    destruct (float_of_int n) eqn:Hn; [discriminate|].
    intros H. inversion H. right. split; [reflexivity|].
    left. exists n. split; [reflexivity|exact Hn].
  - intros H. inversion H. left. split; reflexivity.
Qed.

Lemma apply_preset_raises p : forall acc e,
  apply_preset p acc = Raise e ->
  exists name m, item_raises name m e /\ In (name, m) p.
Proof.
  induction p as [|[name v] p IH]; intros acc e H; simpl in H;
    [discriminate|].
  destruct (key_of_string name) as [k|] eqn:Hk.
  - destruct (multiply (get (fst acc) k) v) as [w|e'] eqn:Hw;
      cbn [bind] in H.
    + destruct (IH _ _ H) as (n & w' & He & Hin).
      exists n, w'. split; [exact He|right; exact Hin].
    + inversion H; subst. exists name, v. split; [|left; reflexivity].
      destruct (multiply_raises _ _ _ _ Hw) as [[-> ->]|[-> Hcause]];
        cbn [item_raises]; rewrite Hk; (split; [discriminate|]);
        [reflexivity|].
      destruct Hcause as [Hint|[-> Hfloat]];
        [left; exact Hint|right; split; [reflexivity|exact Hfloat]].
  - inversion H; subst. exists name, v.
    split; [split; [reflexivity|exact Hk]|left; reflexivity].
Qed.

Section Invariants.

Variable py_float : string -> option float.
Variable emotion_presets : PresetTable.
Variable modifier_presets : PresetTable.
Variable spell_pause_duration : float.

Local Notation "'flush'" := (_flush_text_buffer spell_pause_duration).
Local Notation "'step_'" :=
  (step py_float emotion_presets modifier_presets spell_pause_duration).
Local Notation "'apply_'" :=
  (apply_attribute py_float emotion_presets modifier_presets).
Local Notation "'resolve'" :=
  (_apply_attributes py_float emotion_presets modifier_presets).
Local Notation "'parse_'" :=
  (parse_markup py_float emotion_presets modifier_presets
                spell_pause_duration).

Lemma apply_attribute_raises acc raw e :
  apply_ acc raw = Raise e ->
  preset_error emotion_presets modifier_presets e.
Proof.
  unfold apply_attribute.
  destruct (Str.contains ":" _).
  - destruct (Str.split_once ":" _) as [k v].
    destruct (Str.strip k =? "spell")%string; [discriminate|].
    destruct (key_of_string _); [|discriminate].
    destruct (py_float _); discriminate.
  - destruct (_ =? "spell")%string; [discriminate|].
    destruct (lookup _ emotion_presets) as [p|] eqn:He.
    + intros H. apply apply_preset_raises in H as (n & v & Hraise & Hin).
      exists n, v, (Str.lower (Str.strip raw)), p.
      split; [exact Hraise|]. split; [exact Hin|].
      left. exact (lookup_in _ _ _ He).
    + destruct (lookup _ modifier_presets) as [p|] eqn:Hm; [|discriminate].
      intros H. apply apply_preset_raises in H as (n & v & Hraise & Hin).
      exists n, v, (Str.lower (Str.strip raw)), p.
      split; [exact Hraise|]. split; [exact Hin|].
      right. exact (lookup_in _ _ _ Hm).
Qed.

Lemma resolve_raises top spec e :
  resolve top spec = Raise e ->
  preset_error emotion_presets modifier_presets e.
Proof.
  unfold _apply_attributes.
  generalize (top, @nil key). induction (Str.split "," spec) as [|raw l IH];
    intros acc H; simpl in H; [discriminate|].
  destruct (apply_ acc raw) as [acc'|e'] eqn:E; simpl in H.
  - exact (IH _ H).
  - inversion H; subst. exact (apply_attribute_raises _ _ _ E).
Qed.

(** A property of the state that holds a scope on the stack and that the
    flush and the moves keep is kept by the loop, which raises nothing but
    what a preset raises. *)
Lemma loop_keeps (I : State -> Prop) :
  (forall st, I st -> attribute_stack st <> []) ->
  (forall st st', I st -> flush st = Ok st' -> I st') ->
  (forall st st', I st -> move st st' -> I st') ->
  forall tokens st,
    I st ->
    match for_each step_ tokens st with
    | Ok st' => I st'
    | Raise e => preset_error emotion_presets modifier_presets e
    end.
Proof.
  intros Hstack Hflush Hmove.
  induction tokens as [|token tokens IH]; intros st Hst; [exact Hst|].
  cbn [for_each].
  destruct (step_cases py_float emotion_presets modifier_presets
              spell_pause_duration st token (Hstack st Hst))
    as [(e & top & below & -> & _ & Hr)|(st1 & st' & -> & Hf & Hm)].
  - cbn [bind]. exact (resolve_raises _ _ _ Hr).
  - cbn [bind]. apply IH. apply (Hmove st1); [|exact Hm].
    destruct Hf as [->|Hf]; [exact Hst|exact (Hflush st st1 Hst Hf)].
Qed.

Lemma flush_keeps_stack st st' :
  attribute_stack st <> [] -> flush st = Ok st' -> attribute_stack st' <> [].
Proof.
  intros Hs Hf.
  destruct (flush_cases spell_pause_duration st Hs)
    as (st1 & Hf1 & _ & [->|(top & below & _ & E & _)]);
    rewrite Hf in Hf1; inversion Hf1; subst; [exact Hs|].
  rewrite E. discriminate.
Qed.

Lemma move_keeps_stack st st' :
  attribute_stack st <> [] -> move st st' -> attribute_stack st' <> [].
Proof. intros Hs Hm. destruct Hm; simpl; try assumption; discriminate. Qed.

Lemma finish_returns st :
  attribute_stack st <> [] -> exists segs, finish st = Ok segs.
Proof.
  intros Hs. unfold finish.
  destruct (attribute_stack st) as [|top below]; [congruence|].
  destruct (text_segment_created st); destruct (segments st);
    cbn [negb andb]; try destruct (0 <? pause_before top)%float;
    eexists; reflexivity.
Qed.

(** X7.  Whatever the markup, what [parse_markup] raises is raised by an
    item of a preset of the configuration: the [KeyError] of a name that
    is no key of the attribute dictionary, the [TypeError] of a multiplier
    that is [null] or an object, or the [OverflowError] of an integer
    multiplier beyond the floats or of a float multiplier of [spell].
    With presets that raise none of them it raises nothing: it never
    fails on its stack or on its segments. *)
Theorem parse_markup_raises_preset_error markup_text e :
  parse_ markup_text = Raise e ->
  preset_error emotion_presets modifier_presets e.
Proof.
  unfold parse_markup, run.
  pose proof (loop_keeps (fun st => attribute_stack st <> [])
                (fun st H => H) flush_keeps_stack move_keeps_stack
                (Tokenizer.findall markup_text) initial) as Hloop.
  destruct (for_each step_ (Tokenizer.findall markup_text) initial)
    as [st|e'] eqn:E; cbn [bind].
  - assert (Hs : attribute_stack st <> []) by (apply Hloop; discriminate).
    destruct (flush_cases spell_pause_duration st Hs) as (st' & Hf & _ & _).
    rewrite Hf. cbn [bind].
    destruct (finish_returns st' (flush_keeps_stack st st' Hs Hf))
      as (segs & ->).
    discriminate.
  - intros H; inversion H; subst. apply Hloop. discriminate.
Qed.

End Invariants.

Lemma parse_markup_raises_preset_error_witness :
  let emotion := [("fast", [("rate", MInt (2 ^ 1024))])] in
  let modifier := [("odd", [("pitch", MNone)]); ("far", [("speed", MFloat 2)])] in
  parse_markup Decimal.read emotion modifier 0 "[fast]a" = Raise OverflowError
  /\ parse_markup Decimal.read emotion modifier 0 "a[odd]b" = Raise TypeError
  /\ parse_markup Decimal.read emotion modifier 0 "[far]a"
     = Raise (KeyError "speed")
  /\ preset_error emotion modifier OverflowError.
Proof.
  intros emotion modifier.
  repeat (split; [vm_compute; reflexivity|]).
  apply (parse_markup_raises_preset_error Decimal.read emotion modifier 0
           "[fast]a").
  vm_compute. reflexivity.
Defined.

Lemma untimed_update_last f segs :
  (forall s, untimed s -> untimed (f s)) ->
  Forall untimed segs -> Forall untimed (update_last f segs).
Proof.
  intros Hf. induction segs as [|s segs IH]; intros H; [constructor|].
  inversion H as [|? ? Hs Hsegs]; subst.
  destruct segs as [|s' segs]; [constructor; [apply Hf; exact Hs|constructor]|].
  change (update_last f (s :: s' :: segs))
    with (s :: update_last f (s' :: segs)).
  constructor; [exact Hs|exact (IH Hsegs)].
Qed.

Lemma untimed_segment_of t pb pa a : untimed (segment_of t pb pa a).
Proof. repeat split. Qed.

Lemma untimed_spelled d t top : Forall untimed (spelled_segments d t top).
Proof.
  unfold spelled_segments.
  induction (List.map spell_char (Str.chars t)) as [|x l IH]; [constructor|].
  destruct l as [|y l]; simpl.
  - constructor; [apply untimed_segment_of|constructor].
  - constructor; [apply untimed_segment_of|].
    constructor; [apply untimed_segment_of|exact IH].
Qed.

Lemma last_cons {A : Type} (x : A) l d :
  l <> [] -> List.last (x :: l) d = List.last l d.
Proof. destruct l; [congruence|reflexivity]. Qed.

Section Kept.

Variable py_float : string -> option float.
Variable emotion_presets : PresetTable.
Variable modifier_presets : PresetTable.
Variable spell_pause_duration : float.

Local Notation "'flush'" := (_flush_text_buffer spell_pause_duration).
Local Notation "'step_'" :=
  (step py_float emotion_presets modifier_presets spell_pause_duration).
Local Notation "'parse_'" :=
  (parse_markup py_float emotion_presets modifier_presets
                spell_pause_duration).

Lemma flush_result st st' :
  attribute_stack st <> [] -> flush st = Ok st' ->
  current_text_buffer st' = []
  /\ (st' = st
      \/ exists top below,
           attribute_stack st = top :: below
           /\ attribute_stack st' = set_float top PauseBefore 0 :: below
           /\ emitted spell_pause_duration top (segments st) (segments st')).
Proof.
  intros Hs Hf.
  destruct (flush_cases spell_pause_duration st Hs) as (st1 & Hf1 & Hb & H).
  rewrite Hf in Hf1. inversion Hf1; subst. split; assumption.
Qed.

Lemma emitted_untimed top segs segs' :
  emitted spell_pause_duration top segs segs' ->
  Forall untimed segs -> Forall untimed segs'.
Proof.
  intros He H. destruct He.
  - exact H.
  - apply untimed_update_last; [|exact H].
    intros s (H1 & H2 & H3 & H4 & H5). repeat split; assumption.
  - apply Forall_app. split; [exact H|apply untimed_spelled].
  - apply Forall_app. split; [exact H|].
    constructor; [apply untimed_segment_of|constructor].
Qed.

Lemma run_untimed tokens st :
  run py_float emotion_presets modifier_presets spell_pause_duration tokens
    = Ok st ->
  attribute_stack st <> [] /\ Forall untimed (segments st).
Proof.
  unfold run. intros H.
  set (I := fun st => attribute_stack st <> []
                      /\ Forall untimed (segments st)).
  assert (Hflush : forall st st', I st -> flush st = Ok st' -> I st').
  { intros s s' [Hs Hu] Hf.
    split; [exact (flush_keeps_stack _ s s' Hs Hf)|].
    destruct (flush_result s s' Hs Hf)
      as [_ [->|(top & below & _ & _ & He)]]; [exact Hu|].
    exact (emitted_untimed _ _ _ He Hu). }
  assert (Hmove : forall st st', I st -> move st st' -> I st').
  { intros s s' [Hs Hu] Hm.
    split; [exact (move_keeps_stack s s' Hs Hm)|].
    destruct Hm; simpl; try assumption.
    apply untimed_update_last; [|exact Hu].
    intros x (H1 & H2 & H3 & H4 & H5). repeat split; assumption. }
  pose proof (loop_keeps py_float emotion_presets modifier_presets
                spell_pause_duration I (fun st HI => proj1 HI) Hflush Hmove
                tokens initial) as Hloop.
  destruct (for_each step_ tokens initial) as [st0|e] eqn:E;
    cbn [bind] in H; [|discriminate].
  assert (HI : I st0) by (apply Hloop; split; [discriminate|constructor]).
  exact (Hflush st0 st HI H).
Qed.

Lemma finish_untimed st segs :
  Forall untimed (segments st) -> finish st = Ok segs -> Forall untimed segs.
Proof.
  intros Hu H. unfold finish in H.
  assert (Hd : forall t pb, untimed (segment_default t pb))
    by (intros; repeat split).
  assert (Hfallback :
            forall b : bool, (if b then Ok [segment_default "" 0]
                              else Ok (segments st)) = Ok segs ->
                             Forall untimed segs).
  { intros [] Hb; inversion Hb; subst;
      [constructor; [apply Hd|constructor]|exact Hu]. }
  destruct (negb (text_segment_created st)); [|exact (Hfallback _ H)].
  destruct (attribute_stack st) as [|top below]; [discriminate|].
  destruct (0 <? pause_before top)%float; [|exact (Hfallback _ H)].
  inversion H; subst. apply Forall_app. split; [exact Hu|].
  constructor; [apply Hd|constructor].
Qed.

(** X8.  Every segment that [parse_markup] returns has its spell flag
    unset, no voice, and a start time, an end time and a duration of
    zero: the parser sets the text, the pauses and the three prosody
    attributes, nothing else. *)
Theorem parse_markup_leaves_times_unset markup_text segs :
  parse_ markup_text = Ok segs -> Forall untimed segs.
Proof.
  unfold parse_markup. intros H.
  destruct (run py_float emotion_presets modifier_presets
              spell_pause_duration (Tokenizer.findall markup_text))
    as [st|e] eqn:E; cbn [bind] in H; [|discriminate].
  destruct (run_untimed _ st E) as [_ Hu].
  exact (finish_untimed st segs Hu H).
Qed.

(** X9.  Handed the segments as the parser returns them, the subtitle
    generator writes nothing: no segment has a duration above zero before
    the synthesis has filled it in. *)
Theorem no_subtitle_before_synthesis format_time markup_text segs :
  parse_ markup_text = Ok segs -> generate_srt format_time segs = [].
Proof.
  unfold parse_markup. intros H.
  destruct (run py_float emotion_presets modifier_presets
              spell_pause_duration (Tokenizer.findall markup_text))
    as [st|e] eqn:E; cbn [bind] in H; [|discriminate].
  destruct (run_untimed _ st E) as [_ Hu].
  pose proof (finish_untimed st segs Hu H) as Hall.
  unfold generate_srt.
  replace (List.filter has_subtitle segs) with (@nil SpeechSegment);
    [reflexivity|].
  symmetry. clear -Hall. induction Hall as [|s segs Hs _ IH]; [reflexivity|].
  simpl. destruct Hs as (_ & _ & _ & _ & Hd).
  unfold has_subtitle at 1. rewrite Hd.
  replace (0 <? 0)%float with false by reflexivity.
  rewrite andb_false_r. exact IH.
Qed.

End Kept.

Lemma parse_markup_leaves_times_unset_witness :
  exists segs,
    parse_markup Decimal.read lively calm 0.5
      "[happy]Hi[/] [spell]AI[/][pause:1]" = Ok segs
    /\ Forall untimed segs.
Proof.
  eexists. split; [vm_compute; reflexivity|].
  apply (parse_markup_leaves_times_unset Decimal.read lively calm 0.5
           "[happy]Hi[/] [spell]AI[/][pause:1]").
  vm_compute. reflexivity.
Defined.

Lemma no_subtitle_before_synthesis_witness :
  exists segs,
    parse_markup Decimal.read lively calm 0.5 "[happy]Hi[/] there" = Ok segs
    /\ generate_srt (fun _ => "00:00:00,000") segs = [].
Proof.
  eexists. split; [vm_compute; reflexivity|].
  apply (no_subtitle_before_synthesis Decimal.read lively calm 0.5
           (fun _ => "00:00:00,000") "[happy]Hi[/] there").
  vm_compute. reflexivity.
Defined.

(** ** The subtitle file *)

Section Subtitles.

Variable format_time : float -> string.




End Subtitles.


(** ** The two spelling loops *)

Lemma spell_char_not_empty c : spell_char c <> EmptyString.
Proof. destruct c as [[] [] [] [] [] [] [] []]; vm_compute; discriminate. Qed.

Lemma spoken_interleave sep f (l : list string) :
  text sep = EmptyString ->
  (forall t, text (f t) = t) ->
  Forall (fun t => t <> EmptyString) l ->
  List.filter (fun t => negb (Str.is_empty t))
    (List.map text (interleave sep (List.map f l))) = l.
Proof.
  intros Hsep Hf. induction l as [|x l IH]; intros H; [reflexivity|].
  inversion H as [|? ? Hx Hl]; subst.
  assert (Hkeep : negb (Str.is_empty (text (f x))) = true).
  { rewrite Hf. destruct x; [congruence|reflexivity]. }
  destruct l as [|y l].
  - cbn [List.map interleave List.filter]. rewrite Hkeep, Hf. reflexivity.
  - change (interleave sep (List.map f (x :: y :: l)))
      with (f x :: sep :: interleave sep (List.map f (y :: l))).
    cbn [List.map List.filter]. rewrite Hkeep, Hsep.
    change (negb (Str.is_empty EmptyString)) with false. cbv iota.
    rewrite Hf. f_equal. exact (IH Hl).
Qed.

(** X11.  The spelling loop inside the flush and [_spell_text] agree: the
    texts of the segments of a spelled flush, joined by single spaces
    with the silent segments between the sounds left out, are
    [_spell_text] of the flushed text. *)
Theorem spelled_flush_says_spell_text d text_content top :
  spoken_text (spelled_segments d text_content top)
  = _spell_text text_content.
Proof.
  unfold spoken_text, spelled_segments, _spell_text. f_equal.
  apply (spoken_interleave (segment_of "" d 0 top)
           (fun char_text => segment_of char_text 0 0 top));
    [reflexivity|reflexivity|].
  induction (Str.chars text_content) as [|c l IH]; constructor;
    [apply spell_char_not_empty|exact IH].
Qed.

(** ** Scopes *)

(** Within the tokens every closing tag closes an opening tag of theirs
    and every opening tag is closed; [depth] counts the opening tags
    still open. *)
Fixpoint balanced (depth : nat) (tokens : list string) : bool :=
  match tokens with
  | [] => Nat.eqb depth 0
  | token :: rest =>
      if is_tag token then
        if (token =? "[/]")%string then
          match depth with
          | 0 => false
          | S d => balanced d rest
          end
        else if Str.startswith "[pause:" token then balanced depth rest
        else balanced (S depth) rest
      else balanced depth rest
  end.

Lemma same_but_pause_before_refl a : same_but_pause_before a a.
Proof. repeat split. Qed.

Lemma same_but_pause_before_trans a b c :
  same_but_pause_before a b -> same_but_pause_before b c ->
  same_but_pause_before a c.
Proof.
  intros (H1 & H2 & H3 & H4 & H5) (K1 & K2 & K3 & K4 & K5).
  repeat split; congruence.
Qed.

Lemma same_but_pause_before_set a f :
  same_but_pause_before a (set_float a PauseBefore f).
Proof. repeat split. Qed.

Section Scopes.

Variable py_float : string -> option float.
Variable emotion_presets : PresetTable.
Variable modifier_presets : PresetTable.
Variable spell_pause_duration : float.

Local Notation "'flush'" := (_flush_text_buffer spell_pause_duration).
Local Notation "'step_'" :=
  (step py_float emotion_presets modifier_presets spell_pause_duration).

Lemma flush_stack st st' top below :
  attribute_stack st = top :: below -> flush st = Ok st' ->
  exists top', same_but_pause_before top top'
               /\ attribute_stack st' = top' :: below.
Proof.
  intros Hs Hf.
  assert (Hne : attribute_stack st <> []) by (rewrite Hs; discriminate).
  destruct (flush_result spell_pause_duration st st' Hne Hf)
    as [_ [->|(t & b & Hst & Hst' & _)]].
  - exists top. split; [apply same_but_pause_before_refl|exact Hs].
  - rewrite Hs in Hst. injection Hst as <- <-.
    exists (set_float top PauseBefore 0).
    split; [apply same_but_pause_before_set|exact Hst'].
Qed.

(** What one turn of the loop does to the stack. *)
Lemma step_stack st token st' top below :
  attribute_stack st = top :: below ->
  step_ st token = Ok st' ->
  exists top', same_but_pause_before top top' /\
    if is_tag token then
      if (token =? "[/]")%string then
        attribute_stack st' = match below with
                              | [] => [top']
                              | _ :: _ => below
                              end
      else if Str.startswith "[pause:" token
      then attribute_stack st' = top' :: below
      else exists temp, attribute_stack st' = temp :: top' :: below
    else attribute_stack st' = top' :: below.
Proof.
  intros Hs H. unfold step in H. unfold is_tag.
  destruct (Str.startswith "[" token && Str.endswith "]" token).
  - destruct (token =? "[/]")%string.
    + unfold close_tag in H.
      destruct (flush st) as [st1|e] eqn:Hf; cbn [bind] in H;
        [|discriminate].
      destruct (flush_stack st st1 top below Hs Hf) as (top' & Hsame & Hs1).
      exists top'. split; [exact Hsame|].
      rewrite Hs1 in H. destruct below; inversion H; subst;
        [exact Hs1|reflexivity].
    + destruct (Str.startswith "[pause:" token).
      * unfold pause_tag in H.
        destruct (flush st) as [st1|e] eqn:Hf; cbn [bind] in H;
          [|discriminate].
        destruct (flush_stack st st1 top below Hs Hf)
          as (top' & Hsame & Hs1).
        destruct (py_float _).
        -- destruct (segments st1).
           ++ rewrite Hs1 in H. inversion H; subst.
              exists (set_float top' PauseBefore (pause_before top' + f)%float).
              split; [|reflexivity].
              exact (same_but_pause_before_trans _ _ _ Hsame
                       (same_but_pause_before_set _ _)).
           ++ inversion H; subst. exists top'. split; assumption.
        -- inversion H; subst. exists top'. split; assumption.
      * unfold open_tag in H. rewrite Hs in H.
        destruct (_apply_attributes _ _ _ _ _) as [temp|e];
          cbn [bind] in H; [|discriminate].
        destruct (negb _ && attrs_differ top temp).
        -- destruct (flush st) as [st1|e] eqn:Hf; cbn [bind] in H;
             [|discriminate].
           destruct (flush_stack st st1 top below Hs Hf)
             as (top' & Hsame & Hs1).
           inversion H; subst. exists top'. split; [exact Hsame|].
           exists (fst temp). cbn [attribute_stack]. rewrite Hs1.
           reflexivity.
        -- cbn [bind] in H. inversion H; subst. exists top.
           split; [apply same_but_pause_before_refl|].
           exists (fst temp). cbn [attribute_stack]. rewrite Hs.
           reflexivity.
  - unfold plain_text in H. destruct (Str.is_empty _); inversion H; subst;
      exists top; (split; [apply same_but_pause_before_refl|exact Hs]).
Qed.

(** X12.  What a tag sets ends with its closing tag.  Over tokens in
    which every closing tag has its opening tag and every opening tag is
    closed, the scopes below the active one are left as they were and the
    active scope comes back with its rate, pitch, volume, pause_after and
    spell flag; its pause_before alone may differ. *)
Theorem attributes_end_with_their_tag tokens st st' top below :
  attribute_stack st = top :: below ->
  balanced 0 tokens = true ->
  for_each step_ tokens st = Ok st' ->
  exists top', attribute_stack st' = top' :: below
               /\ same_but_pause_before top top'.
Proof.
  intros Hs Hb Hrun.
  change (attribute_stack st = [] ++ top :: below) in Hs.
  change 0 with (List.length (@nil Attrs)) in Hb.
  revert Hs Hb Hrun. generalize (@nil Attrs) as pushed.
  revert st top.
  induction tokens as [|token tokens IH]; intros st top pushed Hs Hb Hrun.
  - cbn [balanced] in Hb. apply Nat.eqb_eq in Hb.
    destruct pushed; [|discriminate].
    inversion Hrun; subst. exists top.
    split; [exact Hs|apply same_but_pause_before_refl].
  - cbn [for_each] in Hrun.
    destruct (step_ st token) as [st1|e] eqn:Hstep; cbn [bind] in Hrun;
      [|discriminate].
    cbn [balanced] in Hb.
    destruct pushed as [|p pushed].
    + destruct (step_stack st token st1 top below Hs Hstep)
        as (top1 & Hsame & Hst1).
      assert (Hnext : forall pushed',
                 attribute_stack st1 = pushed' ++ top1 :: below ->
                 balanced (List.length pushed') tokens = true ->
                 exists top', attribute_stack st' = top' :: below
                              /\ same_but_pause_before top top').
      { intros pushed' Hs1 Hb1.
        destruct (IH st1 top1 pushed' Hs1 Hb1 Hrun) as (top' & Hs' & Hsame').
        exists top'. split; [exact Hs'|].
        exact (same_but_pause_before_trans _ _ _ Hsame Hsame'). }
      destruct (is_tag token); [|exact (Hnext [] Hst1 Hb)].
      destruct (token =? "[/]")%string; [discriminate|].
      destruct (Str.startswith "[pause:" token); [exact (Hnext [] Hst1 Hb)|].
      destruct Hst1 as (temp & Hst1). exact (Hnext [temp] Hst1 Hb).
    + destruct (step_stack st token st1 p (pushed ++ top :: below) Hs Hstep)
        as (p1 & _ & Hst1).
      destruct (is_tag token);
        [|exact (IH st1 top (p1 :: pushed) Hst1 Hb Hrun)].
      destruct (token =? "[/]")%string.
      * apply (IH st1 top pushed); [|exact Hb|exact Hrun].
        rewrite Hst1. destruct pushed; reflexivity.
      * destruct (Str.startswith "[pause:" token);
          [exact (IH st1 top (p1 :: pushed) Hst1 Hb Hrun)|].
        destruct Hst1 as (temp & Hst1).
        exact (IH st1 top (temp :: p1 :: pushed) Hst1 Hb Hrun).
Qed.

End Scopes.

Lemma attributes_end_with_their_tag_witness :
  let tokens :=
    Tokenizer.findall "[happy]Hi [rate:2,spell]big[/] world[/][pause:1]" in
  balanced 0 tokens = true
  /\ exists st',
       for_each (step Decimal.read lively calm 0.5) tokens initial = Ok st'
       /\ exists top', attribute_stack st' = [top']
                       /\ same_but_pause_before _get_default_attrs top'.
Proof.
  intros tokens. split; [vm_compute; reflexivity|].
  eexists. split; [vm_compute; reflexivity|].
  apply (attributes_end_with_their_tag Decimal.read lively calm 0.5
           tokens initial _ _get_default_attrs []);
    vm_compute; reflexivity.
Defined.

(** ** Pauses without text *)

(** The markup made of the pause tags of the values [ds], one after the
    other. *)
Definition pauses_markup (ds : list string) : string :=
  List.fold_right String.append EmptyString (List.map pause_token ds).

Lemma findall_pauses ds :
  Forall (fun d => Str.contains "]" d = false) ds ->
  Tokenizer.findall (pauses_markup ds) = List.map pause_token ds.
Proof.
  induction 1 as [|d ds Hd _ IH]; [reflexivity|].
  unfold pauses_markup. cbn [List.map List.fold_right].
  fold (pauses_markup ds).
  replace (pause_token d ++ pauses_markup ds)%string
    with (String "[" (("pause:" ++ d) ++ String "]" (pauses_markup ds))).
  2:{ unfold pause_token. rewrite !StrFacts.append_assoc. reflexivity. }
  rewrite Tokens.findall_tag_first; [|discriminate|exact Hd].
  rewrite IH. reflexivity.
Qed.

Section PausesAlone.

Variable py_float : string -> option float.
Variable emotion_presets : PresetTable.
Variable modifier_presets : PresetTable.
Variable spell_pause_duration : float.

Local Notation "'flush'" := (_flush_text_buffer spell_pause_duration).
Local Notation "'step_'" :=
  (step py_float emotion_presets modifier_presets spell_pause_duration).
Local Notation "'parse_'" :=
  (parse_markup py_float emotion_presets modifier_presets
                spell_pause_duration).

(** The values that [float] accepts, added one by one to [start]; a
    value that it refuses adds nothing. *)
Definition total_pause (ds : list string) (start : float) : float :=
  List.fold_left
    (fun acc d => match py_float d with
                  | Some v => (acc + v)%float
                  | None => acc
                  end) ds start.

Lemma pauses_before_text ds : forall st top below,
  segments st = [] -> current_text_buffer st = [] ->
  attribute_stack st = top :: below ->
  exists st' top',
    for_each step_ (List.map pause_token ds) st = Ok st'
    /\ segments st' = [] /\ current_text_buffer st' = []
    /\ text_segment_created st' = text_segment_created st
    /\ attribute_stack st' = top' :: below
    /\ pause_before top' = total_pause ds (pause_before top).
Proof.
  induction ds as [|d ds IH]; intros st top below Hseg Hbuf Hs.
  - exists st, top. repeat split; assumption.
  - cbn [List.map for_each].
    rewrite (step_pause_token py_float emotion_presets modifier_presets
               spell_pause_duration st d).
    rewrite (flush_empty_buffer spell_pause_duration st Hbuf).
    cbn [bind total_pause List.fold_left].
    destruct (py_float d) as [v|].
    + rewrite Hseg, Hs. cbn [bind].
      destruct (IH (mkState [] (set_float top PauseBefore
                                  (pause_before top + v)%float :: below)
                      (current_text_buffer st) (text_segment_created st))
                   (set_float top PauseBefore (pause_before top + v)%float)
                   below eq_refl Hbuf eq_refl)
        as (st' & top' & Hrun & H1 & H2 & H3 & H4 & H5).
      exists st', top'. repeat split; assumption.
    + cbn [bind].
      destruct (IH st top below Hseg Hbuf Hs)
        as (st' & top' & Hrun & H1 & H2 & H3 & H4 & H5).
      exists st', top'. repeat split; assumption.
Qed.

(** X13.  Markup made of pause tags alone gives one segment without text.
    Its pause_before is the sum of the values, taken in their order, when
    that sum is above zero, and zero otherwise; a value that [float]
    refuses counts for nothing. *)
Theorem pauses_alone_give_one_silent_segment ds :
  Forall (fun d => Str.contains "]" d = false) ds ->
  parse_ (pauses_markup ds)
  = Ok [mkSegment ""
          (if (0 <? total_pause ds 0)%float then total_pause ds 0 else 0)
          0 1 1 1 false None 0 0 0].
Proof.
  intros Hds. unfold parse_markup, run. rewrite (findall_pauses ds Hds).
  destruct (pauses_before_text ds initial _get_default_attrs []
              eq_refl eq_refl eq_refl)
    as (st & top & -> & Hseg & Hbuf & Hcreated & Hs & Hpause).
  cbn [bind]. rewrite (flush_empty_buffer spell_pause_duration st Hbuf).
  cbn [bind]. unfold finish. rewrite Hcreated, Hs, Hseg, Hpause.
  cbn [initial text_segment_created negb andb app].
  change (pause_before _get_default_attrs) with 0%float.
  destruct (0 <? total_pause ds 0)%float; reflexivity.
Qed.

End PausesAlone.

Lemma pauses_alone_give_one_silent_segment_witness :
  parse_markup Decimal.read lively calm 0.5 "[pause:1][pause:soon][pause:0.5]"
  = Ok [mkSegment "" 1.5 0 1 1 1 false None 0 0 0].
Proof.
  apply (pauses_alone_give_one_silent_segment Decimal.read lively calm 0.5
           ["1"; "soon"; "0.5"]).
  repeat constructor.
Defined.

(** ** Punctuation after a segment *)

Section Punctuation.

Variable spell_pause_duration : float.

Local Notation "'flush'" := (_flush_text_buffer spell_pause_duration).

(** X14.  Buffered text that is punctuation alone, flushed when the last
    segment has text, makes no segment: it is put at the end of the text
    of that segment, with no space between them.  This holds in a scope
    that spells as in any other; [text_segment_created] stays as it was,
    and the pause_before of the scope is set to zero although no segment
    took it. *)
Theorem punctuation_joins_last_segment st top below segs s :
  attribute_stack st = top :: below ->
  segments st = segs ++ [s] ->
  text s <> EmptyString ->
  current_text_buffer st <> [] ->
  Str.strip (Str.join " " (current_text_buffer st)) <> EmptyString ->
  Str.forallb Char.is_punct
    (Str.strip (Str.join " " (current_text_buffer st))) = true ->
  flush st
  = Ok (mkState
          (segs ++ [mkSegment
                      (text s
                       ++ Str.strip (Str.join " " (current_text_buffer st)))
                      (seg_pause_before s) (seg_pause_after s) (seg_rate s)
                      (seg_pitch s) (seg_volume s) (seg_spell s) (voice s)
                      (start_time s) (end_time s) (duration s)])
          (mkAttrs (rate top) (pitch top) (volume top) 0 (pause_after top)
             (spell top) :: below)
          [] (text_segment_created st)).
Proof.
  intros Hs Hseg Ht Hb Hne Hp.
  rewrite (flush_buffer spell_pause_duration st top below Hs Hb). cbv zeta.
  unfold emit.
  apply StrFacts.is_empty_false in Hne. rewrite Hne.
  assert (Hm : merge_applies
                 (Str.strip (Str.join " " (current_text_buffer st)))
                 (segments st) = true).
  { unfold merge_applies, last_has_text. rewrite Hp, Hseg, rev_app_distr.
    cbn [rev app]. apply StrFacts.is_empty_false in Ht. rewrite Ht.
    destruct segs; reflexivity. }
  rewrite Hm. cbn [fst snd]. rewrite Hseg, update_last_snoc. reflexivity.
Qed.

End Punctuation.

Lemma punctuation_joins_last_segment_witness :
  let top := mkAttrs 1 1 1 2 0 (PyBool true) in
  let st :=
    mkState [mkSegment "Hi" 0 0 1 1 1 false None 0 0 0] [top] ["?!"] true in
  _flush_text_buffer 0.5 st
  = Ok (mkState [mkSegment "Hi?!" 0 0 1 1 1 false None 0 0 0]
          [mkAttrs 1 1 1 0 0 (PyBool true)] [] true).
Proof.
  intros top st.
  apply (punctuation_joins_last_segment 0.5 st top [] []
           (segment_default "Hi" 0));
    (reflexivity || discriminate).
Defined.
